(** * Multi-region manager: latency tracking, region selection and failover

    A shallow embedding of [MultiRegionManager] (multi-region support and
    load balancing) together with the properties of its routing layer.

    Conventions of the embedding.
    - JavaScript numbers that hold elapsed times ([performance.now()]
      differences) are doubles.  A finite double is held as the rational
      [Q] it denotes, and the two operations the program performs on
      elapsed times that can round, [+] and [/] in [getAverageLatency],
      round their exact result to the nearest double, ties to even
      ([JS.add], [JS.div]).  Elapsed times stay far below [2^1024], so no
      sum overflows to [Infinity].  HTTP status codes are [Z]; counters
      are [nat].
    - [this.latencyCache] is a [Map] that is only read by key, so it is a
      [gmap string (list Q)].  [this.regionHealth] is a [Map] whose
      iteration order is observed by [getBestRegion], so it is an
      association list kept in insertion order.
    - The HTTP client and the clock are outside the program: every [await]
      on the client is answered by an oracle, and timestamps are supplied
      with the answers.
    - One call of [executeWithFailover] is followed from its first line to
      its return or throw; what a health tick completing between two of
      its awaits would write is not interleaved. *)

From Stdlib Require Import QArith Qround Qabs Qpower Lqa Ascii.
From stdpp Require Import gmap strings pretty list sorting.

Local Open Scope Z_scope.
Local Open Scope string_scope.
Local Open Scope list_scope.
Local Open Scope nat_scope.

(** ** JavaScript helpers *)

Module JS.

(** Names every object literal inherits from [Object.prototype]; a
    property read with one of these keys yields a truthy value that is
    neither a region configuration nor an array. *)
Definition Object_prototype_keys : list string :=
  [ "constructor"; "__defineGetter__"; "__defineSetter__"; "hasOwnProperty";
    "__lookupGetter__"; "__lookupSetter__"; "isPrototypeOf";
    "propertyIsEnumerable"; "toString"; "valueOf"; "__proto__";
    "toLocaleString" ].

(** Result of the property read [obj[key]] on an object literal. *)
Inductive Property (A : Type) : Type :=
| Own (a : A)
| Inherited
| Undefined.
Arguments Own {A} a.
Arguments Inherited {A}.
Arguments Undefined {A}.

Fixpoint assoc {A} (k : string) (l : list (string * A)) : option A :=
  match l with
  | [] => None
  | (k', a) :: l' => if String.eqb k' k then Some a else assoc k l'
  end.

Definition get {A} (obj : list (string * A)) (k : string) : Property A :=
  match assoc k obj with
  | Some a => Own a
  | None => if existsb (String.eqb k) Object_prototype_keys
            then Inherited else Undefined
  end.

(** [Object.keys(obj)]: own keys in insertion order (none of the keys in
    this program is an array index). *)
Definition keys {A} (obj : list (string * A)) : list string := map fst obj.

(** [Map.prototype.get] and [Map.prototype.set] on an insertion-ordered
    map: [set] on a present key keeps its position, on a new key
    appends. *)
Definition Map_get {A} (m : list (string * A)) (k : string) : option A :=
  assoc k m.

Fixpoint Map_set {A} (m : list (string * A)) (k : string) (v : A)
  : list (string * A) :=
  match m with
  | [] => [(k, v)]
  | (k', a) :: m' =>
      if String.eqb k' k then (k', v) :: m' else (k', a) :: Map_set m' k v
  end.

(** [Array.prototype.includes] on an array of strings. *)
Definition includes (l : list string) (x : string) : bool :=
  existsb (String.eqb x) l.

(** [Array.prototype.shift]: drops the first element. *)
Definition shift {A} (l : list A) : list A := tail l.

(** [Math.round]: nearest integer, halves towards plus infinity. *)
Definition Math_round (q : Q) : Z := Qfloor (q + (1 # 2))%Q.

(** The double nearest to the rational [q]: round to nearest, ties to
    even, on the 53-bit significand of binary64, with gradual underflow
    below [2^-1022].  [e] is the exponent of [q], the [floor] of its binary
    logarithm, and [2^-s] the distance between neighbouring doubles
    there. *)
Definition round_half_even (x : Q) : Z :=
  let f := Qfloor x in
  match (x - inject_Z f ?= 1 # 2)%Q with
  | Lt => f
  | Gt => (f + 1)%Z
  | Eq => if Z.even f then f else (f + 1)%Z
  end.

Definition double (q : Q) : Q :=
  let q := Qred q in
  if Qeq_bool q 0 then 0%Q else
  let a := Qabs q in
  let e0 := (Z.log2 (Qnum a) - Z.log2 (Zpos (Qden a)))%Z in
  let e := if Qle_bool (2 ^ e0) a then e0 else (e0 - 1)%Z in
  let s := (52 - Z.max e (-1022))%Z in
  let significand := round_half_even (a * 2 ^ s) in
  Qred (inject_Z (Z.sgn (Qnum q) * significand) * 2 ^ (- s))%Q.

(** [a + b] and [a / b] on doubles. *)
Definition add (a b : Q) : Q := double (a + b).
Definition div (a b : Q) : Q := double (a / b).

(** Truthiness of a number: zero is falsy. *)
Definition truthy (q : Q) : bool := negb (Qeq_bool q 0).

(** A value of [number | Infinity]. *)
Inductive Num : Type :=
| Finite (q : Q)
| Infinity.

(** [a < b] on [Num]. *)
Definition lt (a b : Num) : bool :=
  match a, b with
  | Finite x, Finite y => negb (Qle_bool y x)
  | Finite _, Infinity => true
  | Infinity, _ => false
  end.

(** Sign of [a - b] as [Array.prototype.sort] reads it from a
    comparator: [Infinity - Infinity] is [NaN], which the sort takes
    as [+0]. *)
Definition minus_sign (a b : Num) : comparison :=
  if lt a b then Lt else if lt b a then Gt else Eq.

(** [Array.prototype.sort(cmp)] for a consistent comparator: the sort is
    stable, so its result is the one an insertion sort gives that never
    moves an element past one it does not strictly follow. *)
Section Sort.
Context {A : Type} (cmp : A -> A -> comparison).

Fixpoint sort_insert (x : A) (l : list A) : list A :=
  match l with
  | [] => [x]
  | y :: l' =>
      match cmp y x with
      | Lt => y :: sort_insert x l'
      | _ => x :: y :: l'
      end
  end.

Definition sort (l : list A) : list A := foldr sort_insert [] l.
End Sort.

End JS.

(** ** Regional configuration *)

Record RegionConfig : Type := {
  name : string;
  endpoint : string;
  priority : Z;
  healthCheck : string;
  latencyThreshold : Q;
  timezone : string
}.

Definition REGIONS : list (string * RegionConfig) :=
  [ ("us-east-1",
     {| name := "US East (Virginia)";
        endpoint := "https://us-east-api.web-scan.com";
        priority := 1; healthCheck := "/health";
        latencyThreshold := 200; timezone := "America/New_York" |});
    ("us-west-2",
     {| name := "US West (Oregon)";
        endpoint := "https://us-west-api.web-scan.com";
        priority := 2; healthCheck := "/health";
        latencyThreshold := 250; timezone := "America/Los_Angeles" |});
    ("eu-west-1",
     {| name := "Europe (Ireland)";
        endpoint := "https://eu-west-api.web-scan.com";
        priority := 1; healthCheck := "/health";
        latencyThreshold := 300; timezone := "Europe/Dublin" |});
    ("ap-southeast-1",
     {| name := "Asia Pacific (Singapore)";
        endpoint := "https://ap-southeast-api.web-scan.com";
        priority := 1; healthCheck := "/health";
        latencyThreshold := 400; timezone := "Asia/Singapore" |}) ].

Definition GEO_REGIONS : list (string * list string) :=
  [ ("US", ["us-east-1"; "us-west-2"]);
    ("CA", ["us-east-1"; "us-west-2"]);
    ("GB", ["eu-west-1"]);
    ("DE", ["eu-west-1"]);
    ("FR", ["eu-west-1"]);
    ("SG", ["ap-southeast-1"]);
    ("JP", ["ap-southeast-1"]);
    ("AU", ["ap-southeast-1"]) ].

(** ** Manager state *)

Inductive HealthStatus : Type := healthy_status | unhealthy_status.

(** The health object stored per region.  The two literals built by
    [checkAllRegionsHealth] and the [lastError] property added by
    [executeWithFailover] have different property sets; an absent property
    and a [null] one are both [None]. *)
Record HealthRecord : Type := {
  regionId : string;
  status : HealthStatus;
  latency : option Z;
  lastCheck : string;
  responseTime : option Q;
  statusCode : option Z;
  error : option string;
  healthy : bool;
  lastError : option string
}.

Record FailoverEvent : Type := {
  timestamp : string;
  fromRegion : string;
  ev_error : string;
  attempt : nat
}.

Record Manager : Type := {
  currentRegion : string;
  regionHealth : list (string * HealthRecord);
  latencyCache : gmap string (list Q);
  failoverHistory : list FailoverEvent
}.

(** The fields the constructor sets, [env_region] being
    [process.env.AWS_REGION] ([None] when unset or empty). *)
Definition constructor (env_region : option string) : Manager :=
  {| currentRegion :=
       match env_region with
       | Some r => if String.eqb r "" then "us-east-1" else r
       | None => "us-east-1"
       end;
     regionHealth := [];
     latencyCache := ∅;
     failoverHistory := [] |}.

(** ** Latency tracker *)

(** [updateLatencyCache(regionId, latency)] on the cache alone. *)
Definition push_latency (cache : gmap string (list Q)) (r : string) (lat : Q)
  : gmap string (list Q) :=
  let cache := match cache !! r with
               | Some _ => cache
               | None => <[r := []]> cache
               end in
  let latencies := default [] (cache !! r) in
  let latencies := latencies ++ [lat] in
  let latencies := if 10 <? length latencies
                   then JS.shift latencies else latencies in
  <[r := latencies]> cache.

Definition updateLatencyCache (m : Manager) (r : string) (lat : Q) : Manager :=
  {| currentRegion := currentRegion m;
     regionHealth := regionHealth m;
     latencyCache := push_latency (latencyCache m) r lat;
     failoverHistory := failoverHistory m |}.

(** [latencies.reduce((sum, lat) => sum + lat, 0) / latencies.length] *)
Definition reduce_mean (latencies : list Q) : Q :=
  JS.div (foldl (fun sum lat => JS.add sum lat) 0%Q latencies)
         (inject_Z (Z.of_nat (length latencies))).

(** [getAverageLatency(regionId)]; [None] is [null]. *)
Definition average_of (cache : gmap string (list Q)) (r : string) : option Q :=
  let latencies := default [] (cache !! r) in
  if length latencies =? 0 then None else Some (reduce_mean latencies).

Definition getAverageLatency (m : Manager) (r : string) : option Q :=
  average_of (latencyCache m) r.

(** ** Health monitor *)

(** How one probe of a tick settles: [axios.get] resolved with a response,
    or the [try] block threw (time-out, connection error, a status the
    client rejects).  [lat] is [performance.now() - startTime] and [now]
    is [new Date().toISOString()] at that moment. *)
Inductive ProbeOutcome : Type :=
| ProbeResponse (code : Z) (lat : Q) (now : string)
| ProbeError (msg : string) (now : string).

Definition set_regionHealth (m : Manager) (r : string) (h : HealthRecord)
  : Manager :=
  {| currentRegion := currentRegion m;
     regionHealth := JS.Map_set (regionHealth m) r h;
     latencyCache := latencyCache m;
     failoverHistory := failoverHistory m |}.

(** The health object a probe builds. *)
Definition probe_health (r : string) (config : RegionConfig) (o : ProbeOutcome)
  : HealthRecord :=
  match o with
  | ProbeResponse code lat now =>
      {| regionId := r;
         status := if (code =? 200)%Z then healthy_status else unhealthy_status;
         latency := Some (JS.Math_round lat);
         lastCheck := now;
         responseTime := Some lat;
         statusCode := Some code;
         error := None;
         healthy := (code =? 200)%Z
                    && JS.lt (JS.Finite lat)
                             (JS.Finite (latencyThreshold config * 2)%Q);
         lastError := None |}
  | ProbeError msg now =>
      {| regionId := r;
         status := unhealthy_status;
         latency := None;
         lastCheck := now;
         responseTime := None;
         statusCode := None;
         error := Some msg;
         healthy := false;
         lastError := None |}
  end.

(** The body of the callback of [checkAllRegionsHealth] from the point
    where its probe settles. *)
Definition settle_probe (m : Manager) (r : string) (config : RegionConfig)
    (o : ProbeOutcome) : Manager :=
  let m := set_regionHealth m r (probe_health r config o) in
  match o with
  | ProbeResponse _ lat _ => updateLatencyCache m r lat
  | ProbeError _ _ => m
  end.

(** [checkAllRegionsHealth()]: one probe per entry of [REGIONS], started
    together; [order] lists the regions in the order their probes settle
    and [probe] says how each settles. *)
Definition checkAllRegionsHealth (m : Manager) (probe : string -> ProbeOutcome)
    (order : list string) : Manager :=
  foldl (fun m r =>
           match JS.assoc r REGIONS with
           | Some config => settle_probe m r config (probe r)
           | None => m
           end) m order.

(** ** Region selector *)

(** [avg || Infinity] *)
Definition or_Infinity (avg : option Q) : JS.Num :=
  match avg with
  | Some q => if JS.truthy q then JS.Finite q else JS.Infinity
  | None => JS.Infinity
  end.

(** The callback of the [forEach] in [selectByLatency], on the pair
    [(bestRegion, bestLatency)]. *)
Definition select_step (m : Manager) (best : option string * JS.Num)
    (regionId : string) : option string * JS.Num :=
  let '(bestRegion, bestLatency) := best in
  match getAverageLatency m regionId with
  | Some avgLatency =>
      if JS.truthy avgLatency && JS.lt (JS.Finite avgLatency) bestLatency
      then (Some regionId, JS.Finite avgLatency)
      else (bestRegion, bestLatency)
  | None => (bestRegion, bestLatency)
  end.

(** [selectByLatency(regionIds)]; [None] is the [undefined] that
    [regionIds[0]] yields on an empty array. *)
Definition selectByLatency (m : Manager) (regionIds : list string)
  : option string :=
  fst (foldl (select_step m) (head regionIds, JS.Infinity) regionIds).

(** What a method does: returns a value or throws a [TypeError]. *)
Inductive Completion (A : Type) : Type :=
| Normal (a : A)
| Throw_TypeError.
Arguments Normal {A} a.
Arguments Throw_TypeError {A}.

Definition healthyRegions_of (m : Manager) : list string :=
  map fst (List.filter (fun e => healthy (snd e)) (regionHealth m)).

(** [getBestRegion(clientIP, userCountry)]; [None] for an argument is
    [null]. *)
Definition getBestRegion (m : Manager) (clientIP userCountry : option string)
  : Completion (option string) :=
  let healthyRegions := healthyRegions_of m in
  if length healthyRegions =? 0 then Normal (Some (currentRegion m))
  else
    let by_all := Normal (selectByLatency m healthyRegions) in
    match userCountry with
    | None => by_all
    | Some country =>
        if String.eqb country "" then by_all
        else match JS.get GEO_REGIONS country with
             | JS.Undefined => by_all
             | JS.Inherited => Throw_TypeError
             | JS.Own regions =>
                 let preferredRegions :=
                   List.filter (JS.includes healthyRegions) regions in
                 if 0 <? length preferredRegions
                 then Normal (selectByLatency m preferredRegions)
                 else by_all
             end
    end.

Definition is_healthy (m : Manager) (r : string) : bool :=
  match JS.Map_get (regionHealth m) r with
  | Some health => healthy health
  | None => false
  end.

(** The comparator of [getFailoverRegions]. *)
Definition latency_cmp (m : Manager) (a b : string) : comparison :=
  JS.minus_sign (or_Infinity (getAverageLatency m a))
                (or_Infinity (getAverageLatency m b)).

(** [getFailoverRegions(excludeRegion)] *)
Definition getFailoverRegions (m : Manager) (excludeRegion : option string)
  : list string :=
  JS.sort (latency_cmp m)
    (List.filter (is_healthy m)
       (List.filter (fun r => negb (bool_decide (Some r = excludeRegion)))
          (JS.keys REGIONS))).

(** ** Failover executor *)

(** The error an [await axios(...)] throws: [message] and, when the server
    answered, [response.status]. *)
Record AxiosError : Type := {
  message : string;
  response : option Z
}.

(** How one request settles.  [duration] is the measured elapsed time and
    [now] the clock read in the [catch] block. *)
Inductive AxiosOutcome : Type :=
| Resolved (code : Z) (data : string) (duration : Q)
| Rejected (err : AxiosError) (now : string).

(** What the server did, and how the client settles it when the caller's
    options leave [validateStatus] at the client's default: statuses from
    200 to 299 resolve, every other answer rejects with the response
    attached, no answer rejects without one. *)
Inductive Wire : Type :=
| Answer (code : Z) (data : string)
| NoAnswer (msg : string).

Definition axios_default (w : Wire) (duration : Q) (now : string)
  : AxiosOutcome :=
  match w with
  | Answer code data =>
      if (200 <=? code)%Z && (code <? 300)%Z then Resolved code data duration
      else Rejected {| message := "Request failed with status code "
                                  +:+ pretty code;
                       response := Some code |} now
  | NoAnswer msg => Rejected {| message := msg; response := None |} now
  end.

Record Success : Type := {
  s_data : string;
  s_region : string;
  s_latency : Z;
  s_attempts : nat;
  s_status : Z
}.

(** How [executeWithFailover] ends: [return {...}], the final
    [throw new Error(`All regions failed after ${attempts} attempts. Last
    error: ${lastError?.message}`)], or the [TypeError] of
    [getBestRegion]. *)
Inductive Outcome : Type :=
| Returned (r : Success)
| AllRegionsFailed (attempts : nat) (lastError : option AxiosError)
| TypeError.

(** [error.response && error.response.status >= 500] *)
Definition server_error (err : AxiosError) : bool :=
  match response err with
  | Some code => (500 <=? code)%Z
  | None => false
  end.

Definition mark_unhealthy (rh : list (string * HealthRecord)) (r : string)
    (msg : string) : list (string * HealthRecord) :=
  match JS.Map_get rh r with
  | Some health =>
      JS.Map_set rh r
        {| regionId := regionId health; status := status health;
           latency := latency health; lastCheck := lastCheck health;
           responseTime := responseTime health;
           statusCode := statusCode health; error := error health;
           healthy := false; lastError := Some msg |}
  | None => rh
  end.

(** [failoverHistory.push(ev)] followed by the length check. *)
Definition record_failover (history : list FailoverEvent) (ev : FailoverEvent)
  : list FailoverEvent :=
  let history := history ++ [ev] in
  if 100 <? length history then JS.shift history else history.

Definition failover_event (r : string) (err : AxiosError) (now : string)
    (attempts : nat) : FailoverEvent :=
  {| timestamp := now; fromRegion := r; ev_error := message err;
     attempt := attempts |}.

(** The [catch] block of the loop. *)
Definition catch_block (m : Manager) (r : string) (err : AxiosError)
    (now : string) (attempts : nat) : Manager :=
  {| currentRegion := currentRegion m;
     regionHealth := if server_error err
                     then mark_unhealthy (regionHealth m) r (message err)
                     else regionHealth m;
     latencyCache := latencyCache m;
     failoverHistory :=
       record_failover (failoverHistory m)
                       (failover_event r err now attempts) |}.

(** The two [continue] guards of the loop: [!regionConfig], then
    [!health || !health.healthy]. *)
Definition skipped (m : Manager) (r : string) : bool :=
  match JS.get REGIONS r with
  | JS.Undefined => true
  | _ => negb (is_healthy m r)
  end.

(** A run yields its outcome, the manager it leaves and the requests it
    issued, each with its [X-Region] and [X-Attempt] header. *)
Definition Run : Type := Outcome * Manager * list (string * nat).

Section Executor.
(** [transport r n] settles the request sent to region [r] with
    [X-Attempt: n]. *)
Variable transport : string -> nat -> AxiosOutcome.
Variable maxRetries : Z.

(** [for (const regionId of regionOrder) { ... }] and the final throw.
    A [None] candidate is [undefined], for which [REGIONS] has no
    entry. *)
Fixpoint failover_loop (regionOrder : list (option string)) (attempts : nat)
    (lastError : option AxiosError) (m : Manager)
    (issued : list (string * nat)) : Run :=
  match regionOrder with
  | [] => (AllRegionsFailed attempts lastError, m, issued)
  | regionId :: rest =>
      if (maxRetries <=? Z.of_nat attempts)%Z
      then (AllRegionsFailed attempts lastError, m, issued)
      else
        match regionId with
        | None => failover_loop rest attempts lastError m issued
        | Some r =>
            if skipped m r
            then failover_loop rest attempts lastError m issued
            else
              let attempts := S attempts in
              let issued := issued ++ [(r, attempts)] in
              match transport r attempts with
              | Resolved code data duration =>
                  (Returned {| s_data := data; s_region := r;
                               s_latency := JS.Math_round duration;
                               s_attempts := attempts; s_status := code |},
                   updateLatencyCache m r duration, issued)
              | Rejected err now =>
                  failover_loop rest attempts (Some err)
                                (catch_block m r err now attempts) issued
              end
        end
  end.

Definition regionOrder_of (m : Manager) (preferredRegion : option string)
  : list (option string) :=
  preferredRegion :: map Some (getFailoverRegions m preferredRegion).

(** [executeWithFailover(endpoint, options, maxRetries)]; of [options]
    only [clientIP] and [userCountry] decide the control flow. *)
Definition executeWithFailover (m : Manager) (endpoint : string)
    (clientIP userCountry : option string) : Run :=
  match getBestRegion m clientIP userCountry with
  | Throw_TypeError => (TypeError, m, [])
  | Normal preferredRegion =>
      failover_loop (regionOrder_of m preferredRegion) 0 None m []
  end.
End Executor.

(** ** Status and statistics *)

(** One entry of [status.regions]: the health object spread, followed by
    the properties read from the region's configuration ([None] is
    [undefined], or [null] for the average). *)
Record RegionStatus : Type := {
  rs_health : HealthRecord;
  rs_name : option string;
  rs_endpoint : option string;
  rs_averageLatency : option Z;
  rs_priority : option Z;
  rs_timezone : option string
}.

Record RegionStatusReport : Type := {
  st_currentRegion : string;
  st_totalRegions : nat;
  st_healthyRegions : nat;
  st_unhealthyRegions : nat;
  st_regions : list (string * RegionStatus);
  st_lastUpdate : string
}.

(** The [name] of the value [REGIONS] inherits under a key of
    [Object.prototype]: the functions carry their own name, [constructor]
    is [Object], and [__proto__] is the prototype object, which has
    none. *)
Definition inherited_name (k : string) : option string :=
  if String.eqb k "constructor" then Some "Object"
  else if String.eqb k "__proto__" then None
  else Some k.

(** [avgLatency ? Math.round(avgLatency) : null] *)
Definition rounded_average (avg : option Q) : option Z :=
  match avg with
  | Some q => if JS.truthy q then Some (JS.Math_round q) else None
  | None => None
  end.

(** The callback of the [forEach] in [getRegionStatus].  Reading
    [config.name] throws when [REGIONS] has nothing under the key; an
    assignment to the key [__proto__] sets the prototype of
    [status.regions] and adds no entry. *)
Definition status_step (m : Manager) (status : Completion RegionStatusReport)
    (entry : string * HealthRecord) : Completion RegionStatusReport :=
  let '(regionId, health) := entry in
  match status with
  | Throw_TypeError => Throw_TypeError
  | Normal status =>
      let avgLatency := getAverageLatency m regionId in
      let described :=
        match JS.get REGIONS regionId with
        | JS.Undefined => Throw_TypeError
        | JS.Own config =>
            Normal {| rs_health := health;
                      rs_name := Some (name config);
                      rs_endpoint := Some (endpoint config);
                      rs_averageLatency := rounded_average avgLatency;
                      rs_priority := Some (priority config);
                      rs_timezone := Some (timezone config) |}
        | JS.Inherited =>
            Normal {| rs_health := health;
                      rs_name := inherited_name regionId;
                      rs_endpoint := None;
                      rs_averageLatency := rounded_average avgLatency;
                      rs_priority := None;
                      rs_timezone := None |}
        end in
      match described with
      | Throw_TypeError => Throw_TypeError
      | Normal region =>
          Normal
            {| st_currentRegion := st_currentRegion status;
               st_totalRegions := st_totalRegions status;
               st_healthyRegions :=
                 if healthy health then S (st_healthyRegions status)
                 else st_healthyRegions status;
               st_unhealthyRegions :=
                 if healthy health then st_unhealthyRegions status
                 else S (st_unhealthyRegions status);
               st_regions :=
                 if String.eqb regionId "__proto__" then st_regions status
                 else JS.Map_set (st_regions status) regionId region;
               st_lastUpdate := st_lastUpdate status |}
      end
  end.

(** [getRegionStatus()], [now] being [new Date().toISOString()]. *)
Definition getRegionStatus (m : Manager) (now : string)
  : Completion RegionStatusReport :=
  foldl (status_step m)
        (Normal {| st_currentRegion := currentRegion m;
                   st_totalRegions := length (JS.keys REGIONS);
                   st_healthyRegions := 0;
                   st_unhealthyRegions := 0;
                   st_regions := [];
                   st_lastUpdate := now |})
        (regionHealth m).

(** A value of [regionFailures]: a count, or the string that results
    when 1 is added to something that is not a number. *)
Inductive Tally : Type :=
| Count (n : nat)
| Garbled.

(** [regionFailures[k] = (regionFailures[k] || 0) + 1].  Under a key of
    [Object.prototype] the object inherits a truthy value that is not a
    number; a string assigned to [__proto__] is dropped. *)
Definition tally_step (regionFailures : list (string * Tally))
    (record : FailoverEvent) : list (string * Tally) :=
  let k := fromRegion record in
  match JS.get regionFailures k with
  | JS.Own (Count n) => JS.Map_set regionFailures k (Count (n + 1))
  | JS.Own Garbled => JS.Map_set regionFailures k Garbled
  | JS.Undefined => JS.Map_set regionFailures k (Count (0 + 1))
  | JS.Inherited =>
      if String.eqb k "__proto__" then regionFailures
      else JS.Map_set regionFailures k Garbled
  end.

Record FailoverStats : Type := {
  totalFailovers : nat;
  last24Hours : nat;
  regionFailures : list (string * Tally);
  recentFailovers : list FailoverEvent
}.

(** [getFailoverStats()].  [getTime ts] is [new Date(ts).getTime()],
    [None] for [NaN]; [now] is [Date.now()]. *)
Definition getFailoverStats (getTime : string -> option Z) (now : Z)
    (m : Manager) : FailoverStats :=
  let last24h :=
    List.filter
      (fun record =>
         match getTime (timestamp record) with
         | Some t => (now - t <? 24 * 60 * 60 * 1000)%Z
         | None => false
         end)
      (failoverHistory m) in
  {| totalFailovers := length (failoverHistory m);
     last24Hours := length last24h;
     regionFailures := foldl tally_step [] last24h;
     recentFailovers :=
       drop (length (failoverHistory m) - 10) (failoverHistory m) |}.

(** ** Cache keys of the Redis client *)

(** JavaScript strings are read as sequences of code units; a [string]
    here holds the code units below 256. *)

(** A code unit the class [[a-zA-Z0-9_-]] accepts. *)
Definition key_char (c : ascii) : bool :=
  let n := nat_of_ascii c in
  ((97 <=? n) && (n <=? 122)) || ((65 <=? n) && (n <=? 90))
  || ((48 <=? n) && (n <=? 57)) || (n =? 95) || (n =? 45).

(** [String(part).replace(/[^a-zA-Z0-9_-]/g, '_')] *)
Fixpoint clean_part (part : string) : string :=
  match part with
  | EmptyString => EmptyString
  | String c rest => String (if key_char c then c else "_"%char)
                            (clean_part rest)
  end.

(** [generateKey(prefix, ...parts)] *)
Definition generateKey (prefix : string) (parts : list string) : string :=
  prefix +:+ ":" +:+ String.concat ":" (map clean_part parts).

(** The key of [cacheScanResult] and [getScanResult]. *)
Definition scan_result_key (scanId endpointName : string) : string :=
  generateKey "scan" [scanId; endpointName].

(** The pattern [invalidateScanResults] hands to [deletePattern]. *)
Definition scan_results_pattern (scanId : string) : string :=
  generateKey "scan" [scanId; "*"].

(** [cacheKeys.scan], and the shape of [cacheKeys.api], [session],
    [monitoring] and [rateLimit]. *)
Definition cacheKeys_scan (scanId endpoint : string) : string :=
  "scan:" +:+ scanId +:+ ":" +:+ endpoint.

Definition cacheKeys_one (prefix part : string) : string :=
  prefix +:+ ":" +:+ part.

(** * Vocabulary of the properties *)

(** ** Windows and averages *)

(** The last [n] elements of a list. *)
Definition lastn {A} (n : nat) (l : list A) : list A :=
  drop (length l - n) l.










(** ** Candidates, runs and the failover log *)

(** No region's health object is healthy. *)
Definition no_healthy_region (m : Manager) : Prop :=
  Forall (fun e => healthy (snd e) = false) (regionHealth m).

(** A candidate the loop passes over without a request. *)
Definition candidate_skipped (m : Manager) (c : option string) : bool :=
  match c with
  | None => true
  | Some r => skipped m r
  end.

(** The first candidate that passes both guards, and the candidates that
    follow it. *)
Fixpoint first_attempted (m : Manager) (order : list (option string))
  : option (string * list (option string)) :=
  match order with
  | [] => None
  | None :: rest => first_attempted m rest
  | Some r :: rest =>
      if skipped m r then first_attempted m rest else Some (r, rest)
  end.

(** The attempt count a run reports. *)
Definition reported_attempts (o : Outcome) : option nat :=
  match o with
  | Returned r => Some (s_attempts r)
  | AllRegionsFailed attempts _ => Some attempts
  | TypeError => None
  end.

(** The status an answer carried, if the server answered at all. *)
Definition answered_status (o : AxiosOutcome) : option Z :=
  match o with
  | Resolved code _ _ => Some code
  | Rejected err _ => response err
  end.

(** The failover events of the requests of [issued] that were rejected. *)
Definition failed_attempts (transport : string -> nat -> AxiosOutcome)
    (issued : list (string * nat)) : list FailoverEvent :=
  omap (fun req =>
          match transport (fst req) (snd req) with
          | Rejected err now =>
              Some (failover_event (fst req) err now (snd req))
          | Resolved _ _ _ => None
          end) issued.

(** What is done with the manager over its life. *)
Inductive Call : Type :=
| Tick (probe : string -> ProbeOutcome) (order : list string)
| Record (r : string) (lat : Q)
| Execute (transport : string -> nat -> AxiosOutcome) (maxRetries : Z)
          (endpoint : string) (clientIP userCountry : option string).

(** One call, on the manager and on the list of all failed attempts so
    far. *)
Definition call_step (st : Manager * list FailoverEvent) (c : Call)
  : Manager * list FailoverEvent :=
  match c with
  | Tick probe order => (checkAllRegionsHealth (fst st) probe order, snd st)
  | Record r lat => (updateLatencyCache (fst st) r lat, snd st)
  | Execute transport maxRetries endpoint clientIP userCountry =>
      let run := executeWithFailover transport maxRetries (fst st) endpoint
                                     clientIP userCountry in
      (snd (fst run), snd st ++ failed_attempts transport (snd run))
  end.

(** The manager and the failed attempts after the calls [cs] on a new
    manager. *)
Definition calls (env : option string) (cs : list Call)
  : Manager * list FailoverEvent :=
  foldl call_step (constructor env, []) cs.

(** ** Ranking *)

(** [a] may stand before [b] in the result for input [l0]: [b] does not
    strictly precede [a], and if neither strictly precedes the other then
    [a] stood before [b] in [l0]. *)
Definition stable_before {A} (cmp : A -> A -> comparison) (l0 : list A)
    (a b : A) : Prop :=
  cmp b a <> Lt /\ (cmp a b <> Lt -> [a; b] `sublist_of` l0).

(** The number a region is ranked by: [getAverageLatency(r) || Infinity]. *)
Definition latency_key (m : Manager) (r : string) : JS.Num :=
  or_Infinity (getAverageLatency m r).

(** [a] ranks no worse than [b]. *)
Definition latency_le (m : Manager) (a b : string) : Prop :=
  JS.lt (latency_key m b) (latency_key m a) = false.

(** The regions [getFailoverRegions] sorts. *)
Definition failover_pool (m : Manager) (excludeRegion : option string)
  : list string :=
  List.filter (is_healthy m)
    (List.filter (fun r => negb (bool_decide (Some r = excludeRegion)))
       (JS.keys REGIONS)).

(** Where the scan of [selectByLatency] stands after the regions [seen]:
    either nothing finite was met and the best region is still the initial
    one, or the best region is the first of [seen] with the lowest key. *)
Definition select_inv (m : Manager) (first : option string)
    (seen : list string) (best : option string * JS.Num) : Prop :=
  (best = (first, JS.Infinity)
   /\ forall r, r ∈ seen -> latency_key m r = JS.Infinity)
  \/ (exists b l1 l2,
         best = (Some b, latency_key m b) /\ seen = l1 ++ b :: l2
         /\ JS.lt (latency_key m b) JS.Infinity = true
         /\ (forall r, r ∈ l1 ->
                       JS.lt (latency_key m b) (latency_key m r) = true)
         /\ (forall r, r ∈ l2 ->
                       JS.lt (latency_key m r) (latency_key m b) = false)).

(** The priority [REGIONS] gives a region. *)
Definition priority_of (r : string) : Z :=
  match JS.assoc r REGIONS with
  | Some config => priority config
  | None => 0%Z
  end.

(** A [null] average counts as worse than any number. *)
Definition null_last (avg : option Q) : JS.Num :=
  match avg with
  | Some q => JS.Finite q
  | None => JS.Infinity
  end.

(** [a] strictly before [b]: lower average latency, then lower priority
    number, then lower identifier. *)
Definition claimed_before (m : Manager) (a b : string) : bool :=
  let la := null_last (getAverageLatency m a) in
  let lb := null_last (getAverageLatency m b) in
  JS.lt la lb
  || (negb (JS.lt lb la)
      && ((priority_of a <? priority_of b)%Z
          || ((priority_of a =? priority_of b)%Z && String.ltb a b))).

(** No element of [l] stands right after one it should precede. *)
Fixpoint claimed_sorted (m : Manager) (l : list string) : bool :=
  match l with
  | a :: (b :: _) as rest =>
      negb (claimed_before m b a) && claimed_sorted m rest
  | _ => true
  end.

(** ** Health ticks *)

(** The latency window a settled probe leaves. *)
Definition window_after (cache : gmap string (list Q)) (r : string)
    (o : ProbeOutcome) : gmap string (list Q) :=
  match o with
  | ProbeResponse _ lat _ => push_latency cache r lat
  | ProbeError _ _ => cache
  end.

(** ** Example states and clients *)

(** A tick in which every probe answers 200 in good time; us-west-2 and
    eu-west-1 take the same time. *)
Definition probes_up (r : string) : ProbeOutcome :=
  let now := "2024-01-01T00:00:00.000Z" in
  if String.eqb r "us-east-1" then ProbeResponse 200 50 now
  else if String.eqb r "us-west-2" then ProbeResponse 200 80 now
  else if String.eqb r "eu-west-1" then ProbeResponse 200 80 now
  else ProbeResponse 200 90 now.

(** A tick in which every probe times out. *)
Definition probes_down (r : string) : ProbeOutcome :=
  ProbeError "timeout of 5000ms exceeded" "2024-01-01T00:00:30.000Z".

(** The manager after its first tick, all regions up. *)
Definition manager_up : Manager :=
  checkAllRegionsHealth (constructor None) probes_up (JS.keys REGIONS).



(** The manager after a second tick in which every probe failed. *)
Definition manager_down : Manager :=
  checkAllRegionsHealth manager_up probes_down (JS.keys REGIONS).

(** The client answering 404 for the first region and 200 elsewhere. *)
Definition transport_404 (r : string) (n : nat) : AxiosOutcome :=
  if String.eqb r "us-east-1"
  then axios_default (Answer 404 "Not Found") 12 "2024-01-01T00:00:05.000Z"
  else axios_default (Answer 200 "ok") 30 "2024-01-01T00:00:05.000Z".

(** The client finding the first region unreachable and 200 elsewhere. *)
Definition transport_refused (r : string) (n : nat) : AxiosOutcome :=
  if String.eqb r "us-east-1"
  then axios_default (NoAnswer "connect ECONNREFUSED") 3
                     "2024-01-01T00:00:05.000Z"
  else axios_default (Answer 200 "ok") 30 "2024-01-01T00:00:05.000Z".

(** A client that would answer 200 for every region. *)
Definition transport_ok (r : string) (n : nat) : AxiosOutcome :=
  axios_default (Answer 200 "ok") 30 "2024-01-01T00:00:35.000Z".

(** ** Traces of a run *)

(** The error a request of the trace was rejected with. *)
Definition rejection (transport : string -> nat -> AxiosOutcome)
    (req : string * nat) : option AxiosError :=
  match transport (fst req) (snd req) with
  | Rejected err _ => Some err
  | Resolved _ _ _ => None
  end.

(** A client that answers 503 for every region. *)
Definition transport_503 (r : string) (n : nat) : AxiosOutcome :=
  axios_default (Answer 503 "Service Unavailable") 8
                "2024-01-01T00:00:05.000Z".

(** A tick in which only us-east-1 answers; every other probe times
    out. *)
Definition probes_east_only (r : string) : ProbeOutcome :=
  if String.eqb r "us-east-1" then probes_up r else probes_down r.

(** ** What every manager satisfies *)

(** The health map has one entry per key, only for regions of [REGIONS],
    each under its own identifier, and a healthy entry stems from a 200 and
    has a latency average; every latency window holds between one and ten
    samples; the failover log holds at most 100 events, each for a region
    of [REGIONS] and with an attempt number from 1 on. *)
Definition manager_invariant (m : Manager) : Prop :=
  NoDup (map fst (regionHealth m))
  /\ (forall r h,
         JS.Map_get (regionHealth m) r = Some h ->
         r ∈ JS.keys REGIONS
         /\ regionId h = r
         /\ (healthy h = true ->
             status h = healthy_status
             /\ statusCode h = Some 200%Z
             /\ is_Some (getAverageLatency m r)))
  /\ (forall r w, latencyCache m !! r = Some w -> w <> [] /\ length w <= 10)
  /\ length (failoverHistory m) <= 100
  /\ Forall (fun ev => fromRegion ev ∈ JS.keys REGIONS /\ 1 <= attempt ev)
            (failoverHistory m).

(** ** Reading the reports *)

(** The events of [l] that stem from region [r]. *)
Definition events_from (r : string) (l : list FailoverEvent)
  : list FailoverEvent :=
  List.filter (fun ev => String.eqb (fromRegion ev) r) l.

(** The sum of the counts of a tally, if all its values are counts. *)
Fixpoint tally_total (l : list (string * Tally)) : option nat :=
  match l with
  | [] => Some 0
  | (_, Count n) :: l' => (fun t => n + t) <$> tally_total l'
  | (_, Garbled) :: _ => None
  end.

(** The failover events of the last 24 hours. *)
Definition last_day (getTime : string -> option Z) (now : Z)
    (history : list FailoverEvent) : list FailoverEvent :=
  List.filter
    (fun ev => match getTime (timestamp ev) with
               | Some t => bool_decide (now - t < 86400000)%Z
               | None => false
               end) history.

(** A clock for the example timestamps: milliseconds since the first
    tick. *)
Definition example_getTime (ts : string) : option Z :=
  if String.eqb ts "2024-01-01T00:00:00.000Z" then Some 0%Z
  else if String.eqb ts "2024-01-01T00:00:05.000Z" then Some 5000%Z
  else if String.eqb ts "2024-01-01T00:00:30.000Z" then Some 30000%Z
  else if String.eqb ts "2024-01-01T00:00:35.000Z" then Some 35000%Z
  else None.

(** The manager after a call in which three regions answered 503. *)
Definition manager_after_503 : Manager :=
  snd (fst (executeWithFailover transport_503 3 manager_up "/api/scan"
                                None None)).

(** ** Reading cache keys *)

(** Every code unit of [s] satisfies [p]. *)
Fixpoint string_forall (p : ascii -> bool) (s : string) : bool :=
  match s with
  | EmptyString => true
  | String c rest => p c && string_forall p rest
  end.

(** A code unit with a meaning of its own in a Redis key pattern. *)
Definition glob_special (c : ascii) : bool :=
  existsb (Ascii.eqb c) ["*"; "?"; "["; "]"; "\"]%char.

(** * Properties *)

(** ** Bounded queues *)

Lemma lastn_length {A} n (l : list A) : length (lastn n l) = length l `min` n.
Proof. unfold lastn. rewrite length_drop. lia. Qed.

Lemma lastn_short {A} n (l : list A) : length l <= n -> lastn n l = l.
Proof.
  intros Hle. unfold lastn.
  replace (length l - n) with 0 by lia. reflexivity.
Qed.


(** Pushing onto a window that holds the last [n] elements and shifting
    when it grew past [n] yields the last [n] elements again. *)
Lemma push_shift_lastn {A} n (all : list A) (x : A) :
  (if n <? length (lastn n all ++ [x])
   then JS.shift (lastn n all ++ [x]) else lastn n all ++ [x])
  = lastn n (all ++ [x]).
Proof.
  rewrite length_app, lastn_length. cbn [length].
  unfold lastn, JS.shift. rewrite length_app. cbn [length].
  destruct (Nat.ltb_spec n (length all `min` n + 1)) as [Hlt | Hge].
  - destruct (decide (n = 0)) as [-> | Hn].
    + rewrite Nat.sub_0_r, !drop_ge by (rewrite ?length_app; simpl; lia).
      reflexivity.
    + rewrite (drop_app_le all [x] (length all + 1 - n)) by lia.
      replace (length all + 1 - n) with (length all - n + 1) by lia.
      rewrite <- (drop_drop all 1 (length all - n)).
      destruct (drop (length all - n) all) as [|y w] eqn:Hw.
      * apply (f_equal length) in Hw. rewrite length_drop in Hw.
        simpl in Hw. lia.
      * reflexivity.
  - replace (length all - n) with 0 by lia.
    replace (length all + 1 - n) with 0 by lia. reflexivity.
Qed.

(** ** Latency tracker *)

Lemma push_latency_lookup cache r lat :
  push_latency cache r lat !! r
  = Some (let w := default [] (cache !! r) ++ [lat] in
          if 10 <? length w then JS.shift w else w).
Proof.
  unfold push_latency.
  destruct (cache !! r) as [w|] eqn:Hr.
  - rewrite lookup_insert_eq, Hr. reflexivity.
  - rewrite !lookup_insert_eq. reflexivity.
Qed.

Lemma push_latency_lookup_ne cache r r' lat :
  r <> r' -> push_latency cache r lat !! r' = cache !! r'.
Proof.
  intros Hne. unfold push_latency.
  destruct (cache !! r) as [w|] eqn:Hr.
  - rewrite lookup_insert_ne by exact Hne. reflexivity.
  - rewrite !lookup_insert_ne by exact Hne. reflexivity.
Qed.






(** ** Double arithmetic *)

Section DoubleArithmetic.
Local Open Scope Q_scope.




















End DoubleArithmetic.



(** ** The health map *)

Lemma Map_get_set_eq {A} (m : list (string * A)) k v :
  JS.Map_get (JS.Map_set m k v) k = Some v.
Proof.
  unfold JS.Map_get. induction m as [|[k' a] m IH]; cbn [JS.Map_set JS.assoc].
  - rewrite String.eqb_refl. reflexivity.
  - destruct (String.eqb_spec k' k) as [-> | Hne]; cbn [JS.assoc].
    + rewrite String.eqb_refl. reflexivity.
    + destruct (String.eqb_spec k' k); [contradiction | exact IH].
Qed.

Lemma Map_get_set_ne {A} (m : list (string * A)) k k' v :
  k <> k' -> JS.Map_get (JS.Map_set m k v) k' = JS.Map_get m k'.
Proof.
  intros Hne. unfold JS.Map_get.
  induction m as [|[k0 a] m IH]; cbn [JS.Map_set JS.assoc].
  - destruct (String.eqb_spec k k'); [contradiction | reflexivity].
  - destruct (String.eqb_spec k0 k) as [-> | Hk]; cbn [JS.assoc].
    + destruct (String.eqb_spec k k'); [contradiction | reflexivity].
    + rewrite IH. reflexivity.
Qed.

Lemma Map_get_Some_elem {A} (m : list (string * A)) k v :
  JS.Map_get m k = Some v -> (k, v) ∈ m.
Proof.
  unfold JS.Map_get. induction m as [|[k' a] m IH]; cbn [JS.assoc].
  - discriminate.
  - destruct (String.eqb_spec k' k) as [-> | Hne].
    + intros [= ->]. apply list_elem_of_here.
    + intros Hget. apply list_elem_of_further, IH, Hget.
Qed.

Lemma no_healthy_regions_nil m :
  no_healthy_region m -> healthyRegions_of m = [].
Proof.
  unfold no_healthy_region, healthyRegions_of.
  induction (regionHealth m) as [|e l IH]; intros Hall; [reflexivity|].
  inversion Hall as [|? ? He Hl]; subst. cbn [List.filter].
  rewrite He. apply IH, Hl.
Qed.

Lemma no_healthy_is_healthy m r :
  no_healthy_region m -> is_healthy m r = false.
Proof.
  intros Hall. unfold is_healthy.
  destruct (JS.Map_get (regionHealth m) r) as [h|] eqn:Hget; [|reflexivity].
  apply Map_get_Some_elem in Hget.
  unfold no_healthy_region in Hall. rewrite Forall_forall in Hall.
  apply (Hall (r, h)), Hget.
Qed.

Lemma getBestRegion_no_healthy m clientIP userCountry :
  no_healthy_region m ->
  getBestRegion m clientIP userCountry = Normal (Some (currentRegion m)).
Proof.
  intros Hall. unfold getBestRegion.
  rewrite (no_healthy_regions_nil m Hall). reflexivity.
Qed.

(** C7. Whenever no region's health object is healthy, [getBestRegion]
    returns the configured current region, whatever the client address
    and the country hint are. *)
Theorem getBestRegion_falls_back_to_current :
  forall (m : Manager) (clientIP userCountry : option string),
    no_healthy_region m ->
    getBestRegion m clientIP userCountry = Normal (Some (currentRegion m)).
Proof.
  intros m clientIP userCountry Hnone. unfold getBestRegion.
  assert (healthyRegions_of m = []) as ->.
  { unfold healthyRegions_of. unfold no_healthy_region in Hnone.
    induction Hnone as [|e l He Hl IH]; [reflexivity|].
    cbn [List.filter]. rewrite He. exact IH. }
  reflexivity.
Qed.

(** ** The failover loop *)

Section Loop.
Variable transport : string -> nat -> AxiosOutcome.
Variable maxRetries : Z.

Local Abbreviation loop := (failover_loop transport maxRetries).

Lemma loop_break order attempts lastError m issued :
  (maxRetries <= Z.of_nat attempts)%Z ->
  loop order attempts lastError m issued
  = (AllRegionsFailed attempts lastError, m, issued).
Proof.
  intros Hle. destruct order as [|c rest]; cbn [failover_loop].
  - reflexivity.
  - destruct (Z.leb_spec maxRetries (Z.of_nat attempts)); [reflexivity | lia].
Qed.

Lemma loop_skip c rest attempts lastError m issued :
  candidate_skipped m c = true ->
  loop (c :: rest) attempts lastError m issued
  = loop rest attempts lastError m issued.
Proof.
  intros Hskip. cbn [failover_loop].
  destruct (Z.leb_spec maxRetries (Z.of_nat attempts)) as [Hle | Hlt].
  - symmetry. apply loop_break, Hle.
  - destruct c as [r|]; [|reflexivity].
    cbn [candidate_skipped] in Hskip. rewrite Hskip. reflexivity.
Qed.

Lemma loop_all_skipped order attempts lastError m issued :
  forallb (candidate_skipped m) order = true ->
  loop order attempts lastError m issued
  = (AllRegionsFailed attempts lastError, m, issued).
Proof.
  induction order as [|c rest IH]; intros Hall.
  - reflexivity.
  - cbn [forallb] in Hall. apply andb_prop in Hall as [Hc Hrest].
    rewrite loop_skip by exact Hc. apply IH, Hrest.
Qed.

(** One iteration that issues a request. *)
Lemma loop_attempt r rest attempts lastError m issued :
  (Z.of_nat attempts < maxRetries)%Z ->
  skipped m r = false ->
  loop (Some r :: rest) attempts lastError m issued
  = match transport r (S attempts) with
    | Resolved code data duration =>
        (Returned {| s_data := data; s_region := r;
                     s_latency := JS.Math_round duration;
                     s_attempts := S attempts; s_status := code |},
         updateLatencyCache m r duration, issued ++ [(r, S attempts)])
    | Rejected err now =>
        loop rest (S attempts) (Some err)
             (catch_block m r err now (S attempts))
             (issued ++ [(r, S attempts)])
    end.
Proof.
  intros Hlt Hskip. cbn [failover_loop].
  destruct (Z.leb_spec maxRetries (Z.of_nat attempts)); [lia|].
  rewrite Hskip. reflexivity.
Qed.

Lemma loop_counts_requests order :
  forall attempts lastError m issued out m' issued',
    attempts = length issued ->
    loop order attempts lastError m issued = (out, m', issued') ->
    reported_attempts out = Some (length issued').
Proof.
  induction order as [|c rest IH];
    intros attempts lastError m issued out m' issued' Hlen Hrun.
  - cbn [failover_loop] in Hrun. injection Hrun as <- <- <-.
    cbn. congruence.
  - destruct (Z.leb_spec maxRetries (Z.of_nat attempts)) as [Hle | Hlt].
    { rewrite loop_break in Hrun by exact Hle.
      injection Hrun as <- <- <-. cbn. congruence. }
    destruct (candidate_skipped m c) eqn:Hskip.
    { rewrite loop_skip in Hrun by exact Hskip. eapply IH; eassumption. }
    destruct c as [r|]; [|discriminate]. cbn [candidate_skipped] in Hskip.
    rewrite loop_attempt in Hrun by assumption.
    destruct (transport r (S attempts)) as [code data duration | err now].
    + injection Hrun as <- <- <-. cbn [reported_attempts s_attempts].
      rewrite length_app. cbn [length]. f_equal. lia.
    + eapply IH; [|exact Hrun]. rewrite length_app. cbn [length]. lia.
Qed.

End Loop.

(** ** Runs without a request *)

Lemma skipped_unhealthy m r : is_healthy m r = false -> skipped m r = true.
Proof.
  intros Hh. unfold skipped. rewrite Hh.
  destruct (JS.get REGIONS r); reflexivity.
Qed.

Lemma filter_none {A} (f : A -> bool) (l : list A) :
  (forall x, f x = false) -> List.filter f l = [].
Proof.
  intros Hf. induction l as [|x l IH]; cbn [List.filter]; [reflexivity|].
  rewrite Hf. exact IH.
Qed.

Lemma getFailoverRegions_no_healthy m excludeRegion :
  no_healthy_region m -> getFailoverRegions m excludeRegion = [].
Proof.
  intros Hall. unfold getFailoverRegions.
  rewrite (filter_none (is_healthy m)); [reflexivity|].
  intros r. apply no_healthy_is_healthy, Hall.
Qed.

Lemma candidates_unhealthy_skipped m (order : list (option string)) :
  (forall r, Some r ∈ order -> is_healthy m r = false) ->
  forallb (candidate_skipped m) order = true.
Proof.
  intros Hall. apply forallb_forall. intros [r|] Hin; [|reflexivity].
  cbn [candidate_skipped]. apply skipped_unhealthy, Hall.
  apply list_elem_of_In, Hin.
Qed.

(** C3, as the code has it. When no region's health object is healthy,
    the only candidate of [executeWithFailover] is the current region, the
    health check made before each attempt passes over it, no request is
    issued, and the call throws the final error with 0 attempts and no last
    error. *)
Theorem no_healthy_region_no_request :
  forall (transport : string -> nat -> AxiosOutcome) (maxRetries : Z)
         (m : Manager) (endpoint : string)
         (clientIP userCountry : option string),
    no_healthy_region m ->
    getBestRegion m clientIP userCountry = Normal (Some (currentRegion m))
    /\ regionOrder_of m (Some (currentRegion m)) = [Some (currentRegion m)]
    /\ executeWithFailover transport maxRetries m endpoint clientIP userCountry
       = (AllRegionsFailed 0 None, m, []).
Proof.
  intros transport maxRetries m endpoint clientIP userCountry Hall.
  assert (regionOrder_of m (Some (currentRegion m))
          = [Some (currentRegion m)]) as Horder.
  { unfold regionOrder_of.
    rewrite getFailoverRegions_no_healthy by exact Hall. reflexivity. }
  split; [apply getBestRegion_no_healthy, Hall|]. split; [exact Horder|].
  unfold executeWithFailover.
  rewrite getBestRegion_no_healthy by exact Hall. rewrite Horder.
  apply loop_all_skipped, candidates_unhealthy_skipped.
  intros r _. apply no_healthy_is_healthy, Hall.
Qed.

(** C10. A candidate whose health object is missing or not healthy is
    passed over without touching the attempt counter; the attempt count a
    run reports, on success or in the final error, is the number of
    requests it issued; and when every candidate is passed over the run
    throws the final error with 0 attempts and no last error, having issued
    no request. *)
Theorem skipped_candidates_consume_no_attempt :
  forall (transport : string -> nat -> AxiosOutcome) (maxRetries : Z)
         (m : Manager) (endpoint : string)
         (clientIP userCountry : option string)
         (out : Outcome) (m' : Manager) (issued : list (string * nat)),
    executeWithFailover transport maxRetries m endpoint clientIP userCountry
    = (out, m', issued) ->
    (forall r rest attempts lastError m0 issued0,
        is_healthy m0 r = false ->
        failover_loop transport maxRetries (Some r :: rest)
                      attempts lastError m0 issued0
        = failover_loop transport maxRetries rest
                        attempts lastError m0 issued0)
    /\ (out = TypeError /\ issued = []
        \/ reported_attempts out = Some (length issued))
    /\ (forall preferredRegion,
           getBestRegion m clientIP userCountry = Normal preferredRegion ->
           (forall r, Some r ∈ regionOrder_of m preferredRegion ->
                      is_healthy m r = false) ->
           out = AllRegionsFailed 0 None /\ m' = m /\ issued = []).
Proof.
  intros transport maxRetries m endpoint clientIP userCountry out m' issued
         Hrun.
  split; [|split].
  - intros r rest attempts lastError m0 issued0 Hh.
    apply loop_skip. cbn [candidate_skipped]. apply skipped_unhealthy, Hh.
  - unfold executeWithFailover in Hrun.
    destruct (getBestRegion m clientIP userCountry) as [preferred|].
    + right. eapply loop_counts_requests; [|exact Hrun]. reflexivity.
    + left. injection Hrun as <- <- <-. split; reflexivity.
  - intros preferred Hbest Hall.
    unfold executeWithFailover in Hrun. rewrite Hbest in Hrun.
    rewrite loop_all_skipped in Hrun
      by (apply candidates_unhealthy_skipped, Hall).
    injection Hrun as <- <- <-. repeat split.
Qed.

(** ** Order on [number | Infinity] *)

Lemma lt_Finite x y : JS.lt (JS.Finite x) (JS.Finite y) = true <-> (x < y)%Q.
Proof.
  cbn [JS.lt]. rewrite negb_true_iff. split.
  - intros Hle. apply Qnot_le_lt. intros Hyx.
    apply Qle_bool_iff in Hyx. congruence.
  - intros Hlt. destruct (Qle_bool y x) eqn:Hle; [|reflexivity].
    apply Qle_bool_iff in Hle. exfalso. exact (Qlt_not_le _ _ Hlt Hle).
Qed.

Lemma lt_asym a b : JS.lt a b = true -> JS.lt b a = false.
Proof.
  destruct a as [x|], b as [y|]; try (cbn; congruence).
  intros Hlt. apply lt_Finite in Hlt.
  destruct (JS.lt (JS.Finite y) (JS.Finite x)) eqn:Hyx; [|reflexivity].
  apply lt_Finite in Hyx. exfalso.
  exact (Qlt_irrefl _ (Qlt_trans _ _ _ Hlt Hyx)).
Qed.

(** [a <= b <= c] gives [a <= c], where [a <= b] reads "not [b < a]". *)
Lemma not_lt_trans a b c :
  JS.lt b a = false -> JS.lt c b = false -> JS.lt c a = false.
Proof.
  destruct a as [x|], b as [y|], c as [z|]; try (cbn; congruence).
  intros Hyx Hzy.
  destruct (JS.lt (JS.Finite z) (JS.Finite x)) eqn:Hzx; [|reflexivity].
  apply lt_Finite in Hzx. exfalso.
  assert (x <= y)%Q as Hxy.
  { apply Qnot_lt_le. intros H. apply lt_Finite in H. congruence. }
  assert (y <= z)%Q as Hyz.
  { apply Qnot_lt_le. intros H. apply lt_Finite in H. congruence. }
  exact (Qlt_not_le _ _ Hzx (Qle_trans _ _ _ Hxy Hyz)).
Qed.

Lemma minus_sign_Lt a b : JS.minus_sign a b = Lt <-> JS.lt a b = true.
Proof.
  unfold JS.minus_sign.
  destruct (JS.lt a b); [tauto|].
  destruct (JS.lt b a); split; discriminate.
Qed.

(** ** The sort *)

Section StableSort.
Context {A : Type} (cmp : A -> A -> comparison).
Hypothesis cmp_asym : forall a b, cmp a b = Lt -> cmp b a <> Lt.
Hypothesis cmp_trans :
  forall a b c, cmp b a <> Lt -> cmp c b <> Lt -> cmp c a <> Lt.

Lemma sort_insert_Permutation x l : JS.sort_insert cmp x l ≡ₚ x :: l.
Proof.
  induction l as [|y l IH]; cbn [JS.sort_insert]; [reflexivity|].
  destruct (cmp y x); try reflexivity.
  rewrite IH. apply Permutation_swap.
Qed.

Lemma sort_Permutation l : JS.sort cmp l ≡ₚ l.
Proof.
  unfold JS.sort. induction l as [|x l IH]; cbn [foldr]; [reflexivity|].
  rewrite sort_insert_Permutation, IH. reflexivity.
Qed.

Lemma stable_before_cons x l0 a b :
  stable_before cmp l0 a b -> stable_before cmp (x :: l0) a b.
Proof.
  intros [Hle Hpos]. split; [exact Hle|].
  intros Hab. apply sublist_cons, Hpos, Hab.
Qed.

Lemma StronglySorted_impl (R1 R2 : A -> A -> Prop) l :
  (forall a b, R1 a b -> R2 a b) ->
  StronglySorted R1 l -> StronglySorted R2 l.
Proof.
  intros Himpl. induction 1 as [|a l Hs IH Hall]; constructor.
  - exact IH.
  - eapply Forall_impl; [exact Hall | apply Himpl].
Qed.

Lemma sort_insert_sorted l0 x s :
  (forall z, z ∈ s -> z ∈ l0) ->
  StronglySorted (stable_before cmp l0) s ->
  StronglySorted (stable_before cmp (x :: l0)) (JS.sort_insert cmp x s).
Proof.
  intros Hin Hs. induction Hs as [|y s Hs IH Hall]; cbn [JS.sort_insert].
  - repeat constructor.
  - assert (StronglySorted (stable_before cmp (x :: l0)) (y :: s)) as Hys.
    { apply (StronglySorted_impl (stable_before cmp l0));
        [apply stable_before_cons | constructor; assumption]. }
    assert (forall z, z ∈ s -> z ∈ l0) as Hin'.
    { intros z Hz. apply Hin. apply list_elem_of_further, Hz. }
    destruct (cmp y x) eqn:Hyx.
    + constructor; [exact Hys|]. rewrite Forall_forall.
      intros z Hz. split.
      * apply StronglySorted_cons in Hys as [Hy _].
        apply elem_of_cons in Hz as [-> | Hz]; [congruence|].
        rewrite Forall_forall in Hy. apply (cmp_trans x y z); [congruence|].
        exact (proj1 (Hy z Hz)).
      * intros _. apply sublist_skip, singleton_sublist_l, Hin, Hz.
    + constructor; [apply IH, Hin'|].
      rewrite Forall_forall. intros z Hz.
      rewrite sort_insert_Permutation in Hz.
      apply elem_of_cons in Hz as [-> | Hz].
      * split; [apply cmp_asym, Hyx | congruence].
      * rewrite Forall_forall in Hall. apply stable_before_cons, Hall, Hz.
    + constructor; [exact Hys|]. rewrite Forall_forall.
      intros z Hz. split.
      * apply StronglySorted_cons in Hys as [Hy _].
        apply elem_of_cons in Hz as [-> | Hz]; [congruence|].
        rewrite Forall_forall in Hy. apply (cmp_trans x y z); [congruence|].
        exact (proj1 (Hy z Hz)).
      * intros _. apply sublist_skip, singleton_sublist_l, Hin, Hz.
Qed.

(** The result is ascending, and elements that compare equal keep the
    order they had in the input. *)
Lemma sort_stable l : StronglySorted (stable_before cmp l) (JS.sort cmp l).
Proof.
  unfold JS.sort. induction l as [|x l IH]; cbn [foldr]; [constructor|].
  apply sort_insert_sorted; [|exact IH].
  intros z Hz. fold (JS.sort cmp l) in Hz.
  rewrite sort_Permutation in Hz. exact Hz.
Qed.
End StableSort.

(** ** Ranking by average latency *)

Lemma latency_cmp_Lt m a b :
  latency_cmp m a b = Lt <-> JS.lt (latency_key m a) (latency_key m b) = true.
Proof. apply minus_sign_Lt. Qed.

Lemma latency_cmp_not_Lt m a b :
  latency_cmp m a b <> Lt <-> latency_le m b a.
Proof.
  unfold latency_le. rewrite latency_cmp_Lt.
  destruct (JS.lt (latency_key m a) (latency_key m b)); split; congruence.
Qed.

Lemma latency_cmp_asym m a b :
  latency_cmp m a b = Lt -> latency_cmp m b a <> Lt.
Proof.
  rewrite latency_cmp_Lt, latency_cmp_not_Lt. apply lt_asym.
Qed.

Lemma latency_cmp_trans m a b c :
  latency_cmp m b a <> Lt -> latency_cmp m c b <> Lt ->
  latency_cmp m c a <> Lt.
Proof.
  rewrite !latency_cmp_not_Lt. unfold latency_le. apply not_lt_trans.
Qed.

Lemma filter_sublist {A} (f : A -> bool) (l : list A) :
  List.filter f l `sublist_of` l.
Proof.
  induction l as [|x l IH]; cbn [List.filter]; [constructor|].
  destruct (f x); [apply sublist_skip | apply sublist_cons]; exact IH.
Qed.

Lemma REGIONS_keys_NoDup : NoDup (JS.keys REGIONS).
Proof. apply (bool_decide_unpack _). vm_compute. reflexivity. Qed.

Lemma failover_pool_sublist m ex :
  failover_pool m ex `sublist_of` JS.keys REGIONS.
Proof.
  unfold failover_pool.
  etransitivity; apply filter_sublist.
Qed.

Lemma getFailoverRegions_Permutation m ex :
  getFailoverRegions m ex ≡ₚ failover_pool m ex.
Proof. apply sort_Permutation. Qed.

Lemma getFailoverRegions_elem m ex r :
  r ∈ getFailoverRegions m ex
  <-> r ∈ JS.keys REGIONS /\ Some r <> ex /\ is_healthy m r = true.
Proof.
  rewrite getFailoverRegions_Permutation. unfold failover_pool.
  rewrite !list_elem_of_In, !filter_In, negb_true_iff, bool_decide_eq_false.
  tauto.
Qed.

Lemma getFailoverRegions_NoDup m ex : NoDup (getFailoverRegions m ex).
Proof.
  rewrite getFailoverRegions_Permutation.
  eapply sublist_NoDup;
    [apply REGIONS_keys_NoDup | apply failover_pool_sublist].
Qed.

Lemma getFailoverRegions_sorted m ex :
  StronglySorted
    (fun a b => latency_le m a b
                /\ (latency_le m b a -> [a; b] `sublist_of` JS.keys REGIONS))
    (getFailoverRegions m ex).
Proof.
  eapply StronglySorted_impl;
    [|apply (sort_stable (latency_cmp m) (latency_cmp_asym m)
                         (latency_cmp_trans m) (failover_pool m ex))].
  intros a b [Hle Hpos]. split.
  - apply latency_cmp_not_Lt, Hle.
  - intros Hba. etransitivity; [|apply failover_pool_sublist].
    apply Hpos, latency_cmp_not_Lt, Hba.
Qed.

Lemma select_step_key m bestRegion bestLatency r :
  select_step m (bestRegion, bestLatency) r
  = if JS.lt (latency_key m r) bestLatency
    then (Some r, latency_key m r) else (bestRegion, bestLatency).
Proof.
  unfold select_step, latency_key, or_Infinity.
  destruct (getAverageLatency m r) as [avg|]; [|reflexivity].
  destruct (JS.truthy avg); reflexivity.
Qed.

Lemma lt_Infinity_false a : JS.lt a JS.Infinity = false -> a = JS.Infinity.
Proof. destruct a; cbn; congruence. Qed.

Lemma lt_trans_le a b c :
  JS.lt a b = true -> JS.lt c b = false -> JS.lt a c = true.
Proof.
  intros Hab Hcb. destruct (JS.lt a c) eqn:Hac; [reflexivity|].
  pose proof (not_lt_trans _ _ _ Hcb Hac) as Hba. congruence.
Qed.

Lemma select_scan m first rest :
  forall seen best,
    select_inv m first seen best ->
    select_inv m first (seen ++ rest) (foldl (select_step m) best rest).
Proof.
  induction rest as [|r rest IH]; intros seen best Hinv; cbn [foldl].
  - rewrite app_nil_r. exact Hinv.
  - replace (seen ++ r :: rest) with ((seen ++ [r]) ++ rest)
      by (rewrite <- app_assoc; reflexivity).
    apply IH. destruct best as [bestRegion bestLatency].
    rewrite select_step_key.
    destruct Hinv as [[[= -> ->] Hinf]
                     | (b & l1 & l2 & [= -> ->] & -> & Hfin & H1 & H2)].
    + destruct (JS.lt (latency_key m r) JS.Infinity) eqn:Hlt.
      * right. exists r, seen, []. repeat split; try assumption.
        -- intros x Hx. rewrite (Hinf x Hx). exact Hlt.
        -- intros x Hx. apply elem_of_nil in Hx. contradiction.
      * left. split; [reflexivity|]. intros x Hx.
        apply elem_of_app in Hx as [Hx | Hx]; [apply Hinf, Hx|].
        apply list_elem_of_singleton in Hx as ->.
        apply lt_Infinity_false, Hlt.
    + destruct (JS.lt (latency_key m r) (latency_key m b)) eqn:Hlt.
      * right. exists r, (l1 ++ b :: l2), []. repeat split; try assumption.
        -- destruct (latency_key m r), (latency_key m b); cbn in *; congruence.
        -- intros x Hx. apply elem_of_app in Hx as [Hx | Hx].
           ++ eapply lt_trans_le; [exact Hlt|]. apply lt_asym, H1, Hx.
           ++ apply elem_of_cons in Hx as [-> | Hx]; [exact Hlt|].
              eapply lt_trans_le; [exact Hlt|]. apply H2, Hx.
        -- intros x Hx. apply elem_of_nil in Hx. contradiction.
      * right. exists b, l1, (l2 ++ [r]). repeat split; try assumption.
        -- rewrite <- app_assoc. reflexivity.
        -- intros x Hx. apply elem_of_app in Hx as [Hx | Hx]; [apply H2, Hx|].
           apply list_elem_of_singleton in Hx as ->. exact Hlt.
Qed.

(** [selectByLatency] returns the first region of its argument whose key
    is the lowest. *)
Lemma selectByLatency_first_lowest m regionIds best :
  selectByLatency m regionIds = Some best ->
  exists l1 l2,
    regionIds = l1 ++ best :: l2
    /\ (forall r, r ∈ l1 ->
                  JS.lt (latency_key m best) (latency_key m r) = true)
    /\ (forall r, r ∈ l2 -> latency_le m best r).
Proof.
  unfold selectByLatency. intros Hsel.
  pose proof (select_scan m (head regionIds) regionIds []
                (head regionIds, JS.Infinity)) as Hscan.
  cbn [app] in Hscan.
  destruct Hscan as [[Hbest Hinf]
                    | (b & l1 & l2 & Hbest & Hseen & _ & H1 & H2)].
  - left. split; [reflexivity|]. intros r Hr.
    apply elem_of_nil in Hr. contradiction.
  - rewrite Hbest in Hsel. cbn [fst] in Hsel.
    destruct regionIds as [|h t]; [discriminate|].
    cbn [head] in Hsel. injection Hsel as ->.
    exists [], t. repeat split.
    + intros r Hr. apply elem_of_nil in Hr. contradiction.
    + intros r Hr. unfold latency_le.
      rewrite (Hinf best) by apply list_elem_of_here.
      rewrite (Hinf r) by apply list_elem_of_further, Hr. reflexivity.
  - rewrite Hbest in Hsel. cbn [fst] in Hsel. injection Hsel as ->.
    exists l1, l2. repeat split; assumption.
Qed.

(** ** The order of the candidates *)

(** C4, counterexample. After a tick in which us-west-2 (priority 2) and
    eu-west-1 (priority 1) were both measured at 80 ms, the failover
    regions come out with us-west-2 before eu-west-1: the tie is not broken
    by priority. *)
Lemma failover_order_ignores_priority :
  getFailoverRegions manager_up (Some "us-east-1")
  = ["us-west-2"; "eu-west-1"; "ap-southeast-1"]
  /\ getAverageLatency manager_up "us-west-2"
     = getAverageLatency manager_up "eu-west-1"
  /\ priority_of "eu-west-1" = 1%Z
  /\ priority_of "us-west-2" = 2%Z
  /\ claimed_sorted manager_up
       (getFailoverRegions manager_up (Some "us-east-1")) = false.
Proof. vm_compute. repeat split. Qed.

(** C4, as the code has it. [getFailoverRegions] returns the healthy
    regions other than the excluded one, each once, ascending by average
    latency with a missing or zero average counted as [Infinity]; regions
    that tie keep the order in which [REGIONS] declares them, and neither
    priority nor identifier is consulted.  [selectByLatency] returns the
    first region of its argument whose average is the lowest.  Both are
    functions of the health and latency snapshot. *)
Theorem failover_regions_order :
  forall (m : Manager) (excludeRegion : option string),
    (forall r, r ∈ getFailoverRegions m excludeRegion
               <-> r ∈ JS.keys REGIONS /\ Some r <> excludeRegion
                   /\ is_healthy m r = true)
    /\ NoDup (getFailoverRegions m excludeRegion)
    /\ StronglySorted
         (fun a b => latency_le m a b
                     /\ (latency_le m b a ->
                         [a; b] `sublist_of` JS.keys REGIONS))
         (getFailoverRegions m excludeRegion)
    /\ (forall regionIds best,
           selectByLatency m regionIds = Some best ->
           exists l1 l2,
             regionIds = l1 ++ best :: l2
             /\ (forall r, r ∈ l1 ->
                   JS.lt (latency_key m best) (latency_key m r) = true)
             /\ (forall r, r ∈ l2 -> latency_le m best r)).
Proof.
  intros m ex. split; [|split; [|split]].
  - intros r. apply getFailoverRegions_elem.
  - apply getFailoverRegions_NoDup.
  - apply getFailoverRegions_sorted.
  - intros regionIds best. apply selectByLatency_first_lowest.
Qed.

(** ** Regions without samples *)







(** ** Failed attempts *)

Lemma skipped_false_healthy m r : skipped m r = false -> is_healthy m r = true.
Proof.
  unfold skipped. destruct (JS.get REGIONS r); try discriminate;
    intros H; apply negb_false_iff in H; exact H.
Qed.

Lemma mark_unhealthy_get rh r msg :
  JS.Map_get (mark_unhealthy rh r msg) r
  = match JS.Map_get rh r with
    | Some health =>
        Some {| regionId := regionId health; status := status health;
                latency := latency health; lastCheck := lastCheck health;
                responseTime := responseTime health;
                statusCode := statusCode health; error := error health;
                healthy := false; lastError := Some msg |}
    | None => None
    end.
Proof.
  unfold mark_unhealthy.
  destruct (JS.Map_get rh r) as [h|] eqn:Hget.
  - apply Map_get_set_eq.
  - exact Hget.
Qed.

Lemma mark_unhealthy_other rh r r' msg :
  r <> r' -> JS.Map_get (mark_unhealthy rh r msg) r' = JS.Map_get rh r'.
Proof.
  intros Hne. unfold mark_unhealthy.
  destruct (JS.Map_get rh r); [apply Map_get_set_ne, Hne | reflexivity].
Qed.

Lemma catch_block_other m r err now n r' :
  r <> r' ->
  JS.Map_get (regionHealth (catch_block m r err now n)) r'
  = JS.Map_get (regionHealth m) r'.
Proof.
  intros Hne. cbn [catch_block regionHealth].
  destruct (server_error err); [apply mark_unhealthy_other, Hne | reflexivity].
Qed.

Lemma catch_block_not_server m r err now n :
  server_error err = false ->
  regionHealth (catch_block m r err now n) = regionHealth m.
Proof. intros Hs. cbn [catch_block regionHealth]. rewrite Hs. reflexivity. Qed.

Lemma record_failover_last history ev :
  last (record_failover history ev) = Some ev.
Proof.
  unfold record_failover.
  destruct (100 <? length (history ++ [ev])) eqn:Hlen.
  - destruct history as [|e history].
    + cbn in Hlen. discriminate.
    + cbn [app JS.shift tail]. apply last_snoc.
  - apply last_snoc.
Qed.

(** A run leaves the health object of every region it did not try as it
    found it. *)
Lemma loop_preserves_record transport maxRetries r order :
  forall attempts lastError m issued out m' issued',
    Some r ∉ order ->
    failover_loop transport maxRetries order attempts lastError m issued
    = (out, m', issued') ->
    JS.Map_get (regionHealth m') r = JS.Map_get (regionHealth m) r.
Proof.
  induction order as [|c rest IH];
    intros attempts lastError m issued out m' issued' Hnotin Hrun.
  - cbn [failover_loop] in Hrun. injection Hrun as _ <- _. reflexivity.
  - apply not_elem_of_cons in Hnotin as [Hne Hnotin].
    destruct (Z.leb_spec maxRetries (Z.of_nat attempts)) as [Hle | Hlt].
    { rewrite loop_break in Hrun by exact Hle.
      injection Hrun as _ <- _. reflexivity. }
    destruct (candidate_skipped m c) eqn:Hskip.
    { rewrite loop_skip in Hrun by exact Hskip. eapply IH; eassumption. }
    destruct c as [r0|]; [|discriminate]. cbn [candidate_skipped] in Hskip.
    rewrite loop_attempt in Hrun by assumption.
    destruct (transport r0 (S attempts)) as [code data duration | err now].
    + injection Hrun as _ <- _. reflexivity.
    + rewrite (IH _ _ _ _ _ _ _ Hnotin Hrun).
      apply catch_block_other. congruence.
Qed.

Lemma regionOrder_NoDup m preferredRegion :
  NoDup (regionOrder_of m preferredRegion).
Proof.
  unfold regionOrder_of. constructor.
  - intros Hin. apply list_elem_of_In, in_map_iff in Hin as (r & <- & Hr).
    apply list_elem_of_In, getFailoverRegions_elem in Hr as (_ & Hne & _).
    congruence.
  - apply (NoDup_fmap_2 Some), getFailoverRegions_NoDup.
Qed.

Lemma first_attempted_split m order r rest :
  first_attempted m order = Some (r, rest) ->
  skipped m r = false
  /\ exists before, order = before ++ Some r :: rest
                    /\ forallb (candidate_skipped m) before = true.
Proof.
  induction order as [|c order IH]; cbn [first_attempted]; [discriminate|].
  destruct c as [r0|].
  - destruct (skipped m r0) eqn:Hskip.
    + intros Hfirst. destruct (IH Hfirst) as (Hr & before & -> & Hall).
      split; [exact Hr|]. exists (Some r0 :: before). split; [reflexivity|].
      cbn [forallb candidate_skipped]. rewrite Hskip. exact Hall.
    + intros [= -> ->]. split; [exact Hskip|]. exists []. split; reflexivity.
  - intros Hfirst. destruct (IH Hfirst) as (Hr & before & -> & Hall).
    split; [exact Hr|]. exists (None :: before). split; [reflexivity|].
    exact Hall.
Qed.

Lemma loop_skip_prefix transport maxRetries m before rest attempts lastError
    issued :
  forallb (candidate_skipped m) before = true ->
  failover_loop transport maxRetries (before ++ rest) attempts lastError m
                issued
  = failover_loop transport maxRetries rest attempts lastError m issued.
Proof.
  induction before as [|c before IH]; intros Hall; [reflexivity|].
  cbn [forallb] in Hall. apply andb_prop in Hall as [Hc Hall].
  cbn [app]. rewrite loop_skip by exact Hc. apply IH, Hall.
Qed.

Lemma client_error_not_server err code :
  response err = Some code -> (code < 500)%Z -> server_error err = false.
Proof.
  intros Hresp Hlt. unfold server_error. rewrite Hresp.
  apply Z.leb_gt, Hlt.
Qed.

(** C1, counterexample. With every region healthy and us-east-1 ranked
    first, a 404 from us-east-1 is not returned: the call goes on to
    us-west-2 and returns its answer with [attempts = 2], after two
    requests. *)
Lemma client_error_is_not_returned :
  getBestRegion manager_up None None = Normal (Some "us-east-1")
  /\ transport_404 "us-east-1" 1
     = Rejected {| message := "Request failed with status code 404";
                   response := Some 404%Z |} "2024-01-01T00:00:05.000Z"
  /\ fst (fst (executeWithFailover transport_404 3 manager_up "/api/scan"
                                   None None))
     = Returned {| s_data := "ok"; s_region := "us-west-2";
                   s_latency := 30; s_attempts := 2; s_status := 200 |}
  /\ snd (executeWithFailover transport_404 3 manager_up "/api/scan"
                              None None)
     = [("us-east-1", 1); ("us-west-2", 2)].
Proof. vm_compute. repeat split. Qed.

(** C1, as the code has it. When the first attempted candidate answers
    with a client-class status, the call never sets that region's healthy
    flag to false.  If the client resolves the answer, the call returns it
    at once with [attempts = 1].  If the client rejects it, as it does for
    every status outside 200-299 unless the caller's options say otherwise,
    the call records a failover event with attempt 1 and goes on with the
    next candidate, as after any other failed attempt. *)
Theorem client_error_on_first_attempt :
  forall (transport : string -> nat -> AxiosOutcome) (maxRetries : Z)
         (m : Manager) (endpoint : string)
         (clientIP userCountry preferredRegion : option string)
         (r : string) (rest : list (option string)) (code : Z),
    getBestRegion m clientIP userCountry = Normal preferredRegion ->
    first_attempted m (regionOrder_of m preferredRegion) = Some (r, rest) ->
    (0 < maxRetries)%Z ->
    answered_status (transport r 1) = Some code ->
    (400 <= code < 500)%Z ->
    let run :=
      executeWithFailover transport maxRetries m endpoint clientIP
                          userCountry in
    match transport r 1 with
    | Resolved _ data duration =>
        run = (Returned {| s_data := data; s_region := r;
                           s_latency := JS.Math_round duration;
                           s_attempts := 1; s_status := code |},
               updateLatencyCache m r duration, [(r, 1)])
    | Rejected err now =>
        let after := catch_block m r err now 1 in
        run = failover_loop transport maxRetries rest 1 (Some err) after
                            [(r, 1)]
        /\ regionHealth after = regionHealth m
        /\ failoverHistory after
           = record_failover (failoverHistory m) (failover_event r err now 1)
    end
    /\ JS.Map_get (regionHealth (snd (fst run))) r
       = JS.Map_get (regionHealth m) r
    /\ is_healthy (snd (fst run)) r = true.
Proof.
  intros transport maxRetries m endpoint clientIP userCountry preferred
         r rest code Hbest Hfirst Hmax Hans Hcode run.
  destruct (first_attempted_split _ _ _ _ Hfirst)
    as (Hr & before & Horder & Hbefore).
  assert (run = match transport r 1 with
                | Resolved code data duration =>
                    (Returned {| s_data := data; s_region := r;
                                 s_latency := JS.Math_round duration;
                                 s_attempts := 1; s_status := code |},
                     updateLatencyCache m r duration, [(r, 1)])
                | Rejected err now =>
                    failover_loop transport maxRetries rest 1 (Some err)
                                  (catch_block m r err now 1) [(r, 1)]
                end) as Hrun.
  { unfold run, executeWithFailover. rewrite Hbest, Horder.
    rewrite loop_skip_prefix by exact Hbefore.
    rewrite loop_attempt by (cbn; lia || exact Hr). reflexivity. }
  assert (Some r ∉ rest) as Hnotin.
  { pose proof (regionOrder_NoDup m preferred) as Hnd.
    rewrite Horder in Hnd. apply NoDup_app in Hnd as (_ & _ & Hnd).
    apply NoDup_cons in Hnd as [Hnotin _]. exact Hnotin. }
  assert (JS.Map_get (regionHealth (snd (fst run))) r
          = JS.Map_get (regionHealth m) r) as Hsame.
  { rewrite Hrun.
    destruct (transport r 1) as [code' data duration | err now] eqn:Htr.
    - reflexivity.
    - cbn [answered_status] in Hans.
      destruct (failover_loop transport maxRetries rest 1 (Some err)
                  (catch_block m r err now 1) [(r, 1)])
        as [[out m'] issued'] eqn:Hloop.
      cbn [fst snd].
      rewrite (loop_preserves_record _ _ _ _ _ _ _ _ _ _ _ Hnotin Hloop).
      rewrite catch_block_not_server; [reflexivity|].
      apply (client_error_not_server err code Hans). lia. }
  split; [|split].
  - destruct (transport r 1) as [code' data duration | err now] eqn:Htr;
      cbn [answered_status] in Hans.
    + injection Hans as ->. exact Hrun.
    + cbv zeta. split; [exact Hrun|]. split; [|reflexivity].
      apply catch_block_not_server.
      apply (client_error_not_server err code Hans). lia.
  - exact Hsame.
  - unfold is_healthy. rewrite Hsame.
    apply skipped_false_healthy in Hr. exact Hr.
Qed.

(** C1 at the run in which us-east-1 answers 404. *)
Lemma client_error_on_first_attempt_witness :
  let run :=
    executeWithFailover transport_404 3 manager_up "/api/scan" None None in
  match transport_404 "us-east-1" 1 with
  | Resolved _ data duration =>
      run = (Returned {| s_data := data; s_region := "us-east-1";
                         s_latency := JS.Math_round duration;
                         s_attempts := 1; s_status := 404 |},
             updateLatencyCache manager_up "us-east-1" duration,
             [("us-east-1", 1)])
  | Rejected err now =>
      let after := catch_block manager_up "us-east-1" err now 1 in
      run = failover_loop transport_404 3
              [Some "us-west-2"; Some "eu-west-1"; Some "ap-southeast-1"]
              1 (Some err) after [("us-east-1", 1)]
      /\ regionHealth after = regionHealth manager_up
      /\ failoverHistory after
         = record_failover (failoverHistory manager_up)
                           (failover_event "us-east-1" err now 1)
  end
  /\ JS.Map_get (regionHealth (snd (fst run))) "us-east-1"
     = JS.Map_get (regionHealth manager_up) "us-east-1"
  /\ is_healthy (snd (fst run)) "us-east-1" = true.
Proof.
  apply (client_error_on_first_attempt transport_404 3 manager_up "/api/scan"
           None None (Some "us-east-1") "us-east-1"
           [Some "us-west-2"; Some "eu-west-1"; Some "ap-southeast-1"] 404).
  - vm_compute. reflexivity.
  - vm_compute. reflexivity.
  - lia.
  - vm_compute. reflexivity.
  - lia.
Defined.

(** C2, counterexample. With every region healthy, a connection-level
    failure of the request to us-east-1 (no response at all) is recorded as
    a failover event, the call goes on to us-west-2, and the health object
    of us-east-1 still has its healthy flag set afterwards. *)
Lemma connection_failure_leaves_region_healthy :
  transport_refused "us-east-1" 1
  = Rejected {| message := "connect ECONNREFUSED"; response := None |}
             "2024-01-01T00:00:05.000Z"
  /\ snd (executeWithFailover transport_refused 3 manager_up "/api/scan"
                              None None)
     = [("us-east-1", 1); ("us-west-2", 2)]
  /\ is_healthy
       (snd (fst (executeWithFailover transport_refused 3 manager_up
                                      "/api/scan" None None)))
       "us-east-1" = true
  /\ map fromRegion
       (failoverHistory
          (snd (fst (executeWithFailover transport_refused 3 manager_up
                                         "/api/scan" None None))))
     = ["us-east-1"].
Proof. vm_compute. repeat split. Qed.

(** C2, as the code has it. Every failed attempt appends a failover event
    and the loop goes on with the next candidate.  The attempted region's
    healthy flag is set to false at once, and the error message stored as
    its last error, exactly when the error carries a response whose status
    is 500 or more; a failure without a response, or with a lower status,
    leaves the health map as it was. *)
Theorem failed_attempt_is_recorded :
  forall (transport : string -> nat -> AxiosOutcome) (maxRetries : Z)
         (m : Manager) (r : string) (rest : list (option string))
         (attempts : nat) (previous : option AxiosError)
         (issued : list (string * nat)) (err : AxiosError) (now : string),
    (Z.of_nat attempts < maxRetries)%Z ->
    skipped m r = false ->
    transport r (S attempts) = Rejected err now ->
    let after := catch_block m r err now (S attempts) in
    failover_loop transport maxRetries (Some r :: rest) attempts previous m
                  issued
    = failover_loop transport maxRetries rest (S attempts) (Some err) after
                    (issued ++ [(r, S attempts)])
    /\ last (failoverHistory after)
       = Some {| timestamp := now; fromRegion := r;
                 ev_error := message err; attempt := S attempts |}
    /\ (forall code,
           response err = Some code -> (500 <= code)%Z ->
           is_healthy after r = false
           /\ (exists health,
                  JS.Map_get (regionHealth after) r = Some health
                  /\ lastError health = Some (message err))
           /\ (forall r', r <> r' ->
                          JS.Map_get (regionHealth after) r'
                          = JS.Map_get (regionHealth m) r'))
    /\ (response err = None
        \/ (exists code, response err = Some code /\ (code < 500)%Z) ->
        regionHealth after = regionHealth m /\ is_healthy after r = true).
Proof.
  intros transport maxRetries m r rest attempts previous issued err now
         Hlt Hskip Htr after.
  pose proof (skipped_false_healthy m r Hskip) as Hhealthy.
  split; [|split; [|split]].
  - rewrite loop_attempt by assumption. rewrite Htr. reflexivity.
  - apply record_failover_last.
  - intros code Hresp Hcode.
    assert (server_error err = true) as Hs.
    { unfold server_error. rewrite Hresp. apply Z.leb_le, Hcode. }
    unfold is_healthy in Hhealthy |- *.
    unfold after. cbn [catch_block regionHealth]. rewrite Hs.
    rewrite mark_unhealthy_get.
    destruct (JS.Map_get (regionHealth m) r) as [h|]; [|discriminate].
    split; [reflexivity|]. split.
    + eexists. split; reflexivity.
    + intros r' Hne. apply mark_unhealthy_other, Hne.
  - intros Hclass.
    assert (server_error err = false) as Hs.
    { destruct Hclass as [Hnone | (code & Hresp & Hcode)].
      - unfold server_error. rewrite Hnone. reflexivity.
      - apply (client_error_not_server err code Hresp Hcode). }
    unfold is_healthy, after.
    rewrite catch_block_not_server by exact Hs.
    split; [reflexivity | exact Hhealthy].
Qed.

(** C2 at the refused request to us-east-1. *)
Lemma failed_attempt_is_recorded_witness :
  let err := {| message := "connect ECONNREFUSED"; response := None |} in
  let now := "2024-01-01T00:00:05.000Z" in
  let after := catch_block manager_up "us-east-1" err now 1 in
  failover_loop transport_refused 3 [Some "us-east-1"; Some "us-west-2"]
                0 None manager_up []
  = failover_loop transport_refused 3 [Some "us-west-2"] 1 (Some err) after
                  ([] ++ [("us-east-1", 1)])
  /\ last (failoverHistory after)
     = Some {| timestamp := now; fromRegion := "us-east-1";
               ev_error := message err; attempt := 1 |}
  /\ (forall code,
         response err = Some code -> (500 <= code)%Z ->
         is_healthy after "us-east-1" = false
         /\ (exists health,
                JS.Map_get (regionHealth after) "us-east-1" = Some health
                /\ lastError health = Some (message err))
         /\ (forall r', "us-east-1" <> r' ->
                        JS.Map_get (regionHealth after) r'
                        = JS.Map_get (regionHealth manager_up) r'))
  /\ (response err = None
      \/ (exists code, response err = Some code /\ (code < 500)%Z) ->
      regionHealth after = regionHealth manager_up
      /\ is_healthy after "us-east-1" = true).
Proof.
  apply (failed_attempt_is_recorded transport_refused 3 manager_up
           "us-east-1" [Some "us-west-2"] 0 None []).
  - lia.
  - vm_compute. reflexivity.
  - vm_compute. reflexivity.
Defined.

(** ** The failover log *)

Lemma record_failover_lastn log ev :
  record_failover (lastn 100 log) ev = lastn 100 (log ++ [ev]).
Proof. unfold record_failover. apply push_shift_lastn. Qed.

Lemma record_failovers_lastn evs :
  forall log,
    foldl record_failover (lastn 100 log) evs = lastn 100 (log ++ evs).
Proof.
  induction evs as [|ev evs IH]; intros log; cbn [foldl].
  - rewrite app_nil_r. reflexivity.
  - rewrite record_failover_lastn, IH, <- app_assoc. reflexivity.
Qed.

Lemma failed_attempts_cons transport r n issued :
  failed_attempts transport ((r, n) :: issued)
  = match transport r n with
    | Rejected err now =>
        failover_event r err now n :: failed_attempts transport issued
    | Resolved _ _ _ => failed_attempts transport issued
    end.
Proof.
  unfold failed_attempts. cbn. destruct (transport r n); reflexivity.
Qed.

Lemma loop_history transport maxRetries order :
  forall attempts lastError m issued out m' issued',
    failover_loop transport maxRetries order attempts lastError m issued
    = (out, m', issued') ->
    exists new,
      issued' = issued ++ new
      /\ failoverHistory m'
         = foldl record_failover (failoverHistory m)
                 (failed_attempts transport new).
Proof.
  induction order as [|c rest IH];
    intros attempts lastError m issued out m' issued' Hrun.
  - cbn [failover_loop] in Hrun. injection Hrun as _ <- <-.
    exists []. rewrite app_nil_r. split; reflexivity.
  - destruct (Z.leb_spec maxRetries (Z.of_nat attempts)) as [Hle | Hlt].
    { rewrite loop_break in Hrun by exact Hle. injection Hrun as _ <- <-.
      exists []. rewrite app_nil_r. split; reflexivity. }
    destruct (candidate_skipped m c) eqn:Hskip.
    { rewrite loop_skip in Hrun by exact Hskip. eapply IH, Hrun. }
    destruct c as [r|]; [|discriminate]. cbn [candidate_skipped] in Hskip.
    rewrite loop_attempt in Hrun by assumption.
    destruct (transport r (S attempts)) as [code data duration | err now]
      eqn:Htr.
    + injection Hrun as _ <- <-. exists [(r, S attempts)].
      split; [reflexivity|].
      rewrite failed_attempts_cons, Htr. reflexivity.
    + apply IH in Hrun as (new & -> & Hhist).
      exists ((r, S attempts) :: new). split.
      * rewrite <- app_assoc. reflexivity.
      * rewrite Hhist, failed_attempts_cons, Htr. reflexivity.
Qed.

Lemma executeWithFailover_history transport maxRetries m endpoint clientIP
    userCountry :
  let run := executeWithFailover transport maxRetries m endpoint clientIP
                                 userCountry in
  failoverHistory (snd (fst run))
  = foldl record_failover (failoverHistory m)
          (failed_attempts transport (snd run)).
Proof.
  cbv zeta. unfold executeWithFailover.
  destruct (getBestRegion m clientIP userCountry) as [preferred|];
    [|reflexivity].
  destruct (failover_loop transport maxRetries (regionOrder_of m preferred)
              0 None m []) as [[out m'] issued'] eqn:Hrun.
  apply loop_history in Hrun as (new & -> & Hhist). exact Hhist.
Qed.

Lemma checkAllRegionsHealth_history m probe order :
  failoverHistory (checkAllRegionsHealth m probe order) = failoverHistory m.
Proof.
  unfold checkAllRegionsHealth. revert m.
  induction order as [|r order IH]; intros m; cbn [foldl]; [reflexivity|].
  rewrite IH. destruct (JS.assoc r REGIONS) as [config|]; [|reflexivity].
  unfold settle_probe. destruct (probe r); reflexivity.
Qed.

(** C6. Whatever calls are made on a manager, its failover log is the
    last 100 of all the failed attempts of its [executeWithFailover] calls,
    oldest first, so it never holds more than 100 entries; and each single
    append already leaves a log that is the last 100 entries of the log
    with the new event at its end. *)
Theorem failover_log_bounded :
  forall (env : option string) (cs : list Call),
    failoverHistory (fst (calls env cs)) = lastn 100 (snd (calls env cs))
    /\ length (failoverHistory (fst (calls env cs))) <= 100
    /\ (forall ev,
           record_failover (failoverHistory (fst (calls env cs))) ev
           = lastn 100 (snd (calls env cs) ++ [ev])
           /\ length (record_failover (failoverHistory (fst (calls env cs))) ev)
              <= 100).
Proof.
  intros env cs.
  assert (failoverHistory (fst (calls env cs))
          = lastn 100 (snd (calls env cs))) as Hlog.
  { unfold calls. induction cs as [|c cs IH] using rev_ind; [reflexivity|].
    rewrite foldl_app. cbn [foldl].
    destruct (foldl call_step (constructor env, []) cs) as [m log].
    cbn [fst snd] in IH.
    destruct c as [probe order | r lat | tr maxR endpoint ip country];
      cbn [call_step fst snd].
    - rewrite checkAllRegionsHealth_history. exact IH.
    - exact IH.
    - rewrite executeWithFailover_history, IH. apply record_failovers_lastn. }
  split; [exact Hlog|]. split.
  - rewrite Hlog, lastn_length. lia.
  - intros ev. rewrite Hlog, record_failover_lastn.
    split; [reflexivity|]. rewrite lastn_length. lia.
Qed.

(** ** Health ticks *)

Lemma settle_probe_get m r config o :
  JS.Map_get (regionHealth (settle_probe m r config o)) r
  = Some (probe_health r config o).
Proof. unfold settle_probe. destruct o; apply Map_get_set_eq. Qed.

Lemma settle_probe_get_ne m r r' config o :
  r <> r' ->
  JS.Map_get (regionHealth (settle_probe m r config o)) r'
  = JS.Map_get (regionHealth m) r'.
Proof.
  intros Hne. unfold settle_probe. destruct o; apply Map_get_set_ne, Hne.
Qed.

Lemma settle_probe_cache m r config o :
  latencyCache (settle_probe m r config o) = window_after (latencyCache m) r o.
Proof. unfold settle_probe. destruct o; reflexivity. Qed.

Lemma settle_probe_cache_ne m r r' config o :
  r <> r' ->
  latencyCache (settle_probe m r config o) !! r' = latencyCache m !! r'.
Proof.
  intros Hne. rewrite settle_probe_cache. destruct o; cbn [window_after].
  - apply push_latency_lookup_ne, Hne.
  - reflexivity.
Qed.

Lemma tick_untouched probe order r :
  forall m,
    r ∉ order ->
    JS.Map_get (regionHealth (checkAllRegionsHealth m probe order)) r
    = JS.Map_get (regionHealth m) r
    /\ latencyCache (checkAllRegionsHealth m probe order) !! r
       = latencyCache m !! r.
Proof.
  unfold checkAllRegionsHealth.
  induction order as [|r0 order IH]; intros m Hnotin; cbn [foldl].
  - split; reflexivity.
  - apply not_elem_of_cons in Hnotin as [Hne Hnotin].
    destruct (IH (match JS.assoc r0 REGIONS with
                  | Some config => settle_probe m r0 config (probe r0)
                  | None => m
                  end) Hnotin) as [-> ->].
    destruct (JS.assoc r0 REGIONS) as [config|]; [|split; reflexivity].
    split; [apply settle_probe_get_ne | apply settle_probe_cache_ne];
      congruence.
Qed.

Lemma tick_settled probe order r config :
  forall m,
    NoDup order -> r ∈ order -> JS.assoc r REGIONS = Some config ->
    JS.Map_get (regionHealth (checkAllRegionsHealth m probe order)) r
    = Some (probe_health r config (probe r))
    /\ latencyCache (checkAllRegionsHealth m probe order) !! r
       = window_after (latencyCache m) r (probe r) !! r.
Proof.
  induction order as [|r0 order IH]; intros m Hnd Hin Hconfig.
  - apply elem_of_nil in Hin. contradiction.
  - apply NoDup_cons in Hnd as [Hnotin Hnd].
    destruct (decide (r0 = r)) as [-> | Hne].
    + change (checkAllRegionsHealth m probe (r :: order))
        with (checkAllRegionsHealth
                (match JS.assoc r REGIONS with
                 | Some config => settle_probe m r config (probe r)
                 | None => m
                 end) probe order).
      rewrite Hconfig.
      destruct (tick_untouched probe order r
                  (settle_probe m r config (probe r)) Hnotin) as [-> ->].
      rewrite settle_probe_get, settle_probe_cache. split; reflexivity.
    + apply elem_of_cons in Hin as [-> | Hin]; [congruence|].
      change (checkAllRegionsHealth m probe (r0 :: order))
        with (checkAllRegionsHealth
                (match JS.assoc r0 REGIONS with
                 | Some config => settle_probe m r0 config (probe r0)
                 | None => m
                 end) probe order).
      destruct (IH (match JS.assoc r0 REGIONS with
                    | Some config => settle_probe m r0 config (probe r0)
                    | None => m
                    end) Hnd Hin Hconfig) as [-> ->].
      split; [reflexivity|].
      destruct (JS.assoc r0 REGIONS) as [config0|]; [|reflexivity].
      destruct (probe r) as [code lat now | msg now]; cbn [window_after].
      * rewrite !push_latency_lookup.
        rewrite settle_probe_cache_ne by exact Hne. reflexivity.
      * apply settle_probe_cache_ne, Hne.
Qed.

(** C8, counterexample. A region whose health object holds a last
    observed round-trip time of 50 ms has it replaced by [null] when its
    next probe fails; only its latency window stays as it was. *)
Lemma failed_probe_clears_latency :
  latency <$> JS.Map_get (regionHealth manager_up) "us-east-1"
  = Some (Some 50%Z)
  /\ probes_down "us-east-1"
     = ProbeError "timeout of 5000ms exceeded" "2024-01-01T00:00:30.000Z"
  /\ latency <$> JS.Map_get (regionHealth manager_down) "us-east-1"
     = Some None
  /\ responseTime <$> JS.Map_get (regionHealth manager_down) "us-east-1"
     = Some None
  /\ latencyCache manager_down !! "us-east-1"
     = latencyCache manager_up !! "us-east-1".
Proof. vm_compute. repeat split. Qed.

(** C8, as the code has it. In a tick whose probes settle in any order,
    a region whose probe got a response has a health object whose healthy
    flag says that the status is 200 and the elapsed time is below twice
    the region's latency threshold, and its latency window receives the
    elapsed time; a region whose probe failed has a fresh health object
    with status unhealthy, healthy flag false, the error message, and a
    [null] latency, and its latency window is left as it was. *)
Theorem tick_updates_health :
  forall (m : Manager) (probe : string -> ProbeOutcome) (order : list string)
         (r : string) (config : RegionConfig),
    order ≡ₚ JS.keys REGIONS ->
    JS.assoc r REGIONS = Some config ->
    let m' := checkAllRegionsHealth m probe order in
    exists health,
      JS.Map_get (regionHealth m') r = Some health
      /\ match probe r with
         | ProbeResponse code lat now =>
             (healthy health = true
              <-> code = 200%Z /\ (lat < latencyThreshold config * 2)%Q)
             /\ (status health = healthy_status <-> code = 200%Z)
             /\ statusCode health = Some code
             /\ latency health = Some (JS.Math_round lat)
             /\ responseTime health = Some lat
             /\ lastCheck health = now
             /\ latencyCache m' !! r
                = push_latency (latencyCache m) r lat !! r
         | ProbeError msg now =>
             status health = unhealthy_status
             /\ healthy health = false
             /\ error health = Some msg
             /\ latency health = None
             /\ responseTime health = None
             /\ statusCode health = None
             /\ lastCheck health = now
             /\ latencyCache m' !! r = latencyCache m !! r
         end.
Proof.
  intros m probe order r config Hperm Hconfig m'.
  assert (NoDup order) as Hnd.
  { rewrite Hperm. apply REGIONS_keys_NoDup. }
  assert (r ∈ order) as Hin.
  { rewrite Hperm. unfold JS.keys.
    clear -Hconfig. induction REGIONS as [|[k c] l IH]; [discriminate|].
    cbn [JS.assoc] in Hconfig. cbn [map fst].
    destruct (String.eqb_spec k r) as [-> | Hne].
    - apply list_elem_of_here.
    - apply list_elem_of_further, IH, Hconfig. }
  destruct (tick_settled probe order r config m Hnd Hin Hconfig)
    as [Hget Hcache].
  exists (probe_health r config (probe r)). split; [exact Hget|].
  fold m' in Hcache. rewrite Hcache.
  destruct (probe r) as [code lat now | msg now];
    cbn [probe_health window_after healthy status statusCode latency
         responseTime lastCheck error].
  - split; [|split; [|repeat split; reflexivity]].
    + rewrite andb_true_iff, Z.eqb_eq, lt_Finite. reflexivity.
    + destruct (Z.eqb_spec code 200); split; congruence.
  - repeat split; reflexivity.
Qed.

(** C8 at the tick in which every probe times out. *)
Lemma tick_updates_health_witness :
  exists health,
    JS.Map_get (regionHealth manager_down) "us-east-1" = Some health
    /\ status health = unhealthy_status
    /\ healthy health = false
    /\ error health = Some "timeout of 5000ms exceeded"
    /\ latency health = None
    /\ responseTime health = None
    /\ statusCode health = None
    /\ lastCheck health = "2024-01-01T00:00:30.000Z"
    /\ latencyCache manager_down !! "us-east-1"
       = latencyCache manager_up !! "us-east-1".
Proof.
  assert (JS.assoc "us-east-1" REGIONS
          = Some {| name := "US East (Virginia)";
                    endpoint := "https://us-east-api.web-scan.com";
                    priority := 1; healthCheck := "/health";
                    latencyThreshold := 200;
                    timezone := "America/New_York" |}) as Hconfig
    by reflexivity.
  exact (tick_updates_health manager_up probes_down (JS.keys REGIONS)
           "us-east-1" _ (Permutation_refl _) Hconfig).
Defined.

(** ** Runs on the example states *)

Lemma manager_down_no_healthy : no_healthy_region manager_down.
Proof. unfold no_healthy_region. vm_compute. repeat constructor. Defined.

(** C3, counterexample. After a tick in which every probe failed, a call
    whose every request would be answered with 200 issues no request at
    all and throws the final error with 0 attempts. *)
Lemma no_healthy_region_zero_attempts :
  healthyRegions_of manager_down = []
  /\ getBestRegion manager_down None None = Normal (Some "us-east-1")
  /\ executeWithFailover transport_ok 3 manager_down "/api/scan" None None
     = (AllRegionsFailed 0 None, manager_down, []).
Proof. vm_compute. repeat split. Qed.

(** C3 at the manager whose probes all failed. *)
Lemma no_healthy_region_no_request_witness :
  getBestRegion manager_down None (Some "US")
  = Normal (Some (currentRegion manager_down))
  /\ regionOrder_of manager_down (Some (currentRegion manager_down))
     = [Some (currentRegion manager_down)]
  /\ executeWithFailover transport_ok 3 manager_down "/api/scan" None
                         (Some "US")
     = (AllRegionsFailed 0 None, manager_down, []).
Proof.
  exact (no_healthy_region_no_request transport_ok 3 manager_down "/api/scan"
           None (Some "US") manager_down_no_healthy).
Defined.

(** C7 at the manager whose probes all failed, with a country hint. *)
Lemma getBestRegion_falls_back_to_current_witness :
  getBestRegion manager_down (Some "203.0.113.7") (Some "GB")
  = Normal (Some (currentRegion manager_down)).
Proof.
  exact (getBestRegion_falls_back_to_current manager_down
           (Some "203.0.113.7") (Some "GB") manager_down_no_healthy).
Defined.

(** C10 at the manager whose probes all failed. *)
Lemma skipped_candidates_consume_no_attempt_witness :
  (forall r rest attempts lastError m0 issued0,
      is_healthy m0 r = false ->
      failover_loop transport_ok 3 (Some r :: rest) attempts lastError m0
                    issued0
      = failover_loop transport_ok 3 rest attempts lastError m0 issued0)
  /\ (AllRegionsFailed 0 None = TypeError /\ @nil (string * nat) = []
      \/ reported_attempts (AllRegionsFailed 0 None)
         = Some (length (@nil (string * nat))))
  /\ (forall preferredRegion,
         getBestRegion manager_down None None = Normal preferredRegion ->
         (forall r, Some r ∈ regionOrder_of manager_down preferredRegion ->
                    is_healthy manager_down r = false) ->
         AllRegionsFailed 0 None = AllRegionsFailed 0 None
         /\ manager_down = manager_down /\ @nil (string * nat) = []).
Proof.
  apply (skipped_candidates_consume_no_attempt transport_ok 3 manager_down
           "/api/scan" None None).
  vm_compute. reflexivity.
Defined.

(** ** Induction over the failover loop *)

Section LoopInduction.
Variable transport : string -> nat -> AxiosOutcome.
Variable maxRetries : Z.
Variable P : list (option string) -> nat -> option AxiosError -> Manager ->
             list (string * nat) -> Run -> Prop.

Hypothesis P_stop :
  forall order attempts lastError m issued,
    order = [] \/ (maxRetries <= Z.of_nat attempts)%Z ->
    P order attempts lastError m issued
      (AllRegionsFailed attempts lastError, m, issued).
Hypothesis P_skip :
  forall c rest attempts lastError m issued res,
    (Z.of_nat attempts < maxRetries)%Z ->
    candidate_skipped m c = true ->
    P rest attempts lastError m issued res ->
    P (c :: rest) attempts lastError m issued res.
Hypothesis P_resolved :
  forall r rest attempts lastError m issued code data duration,
    (Z.of_nat attempts < maxRetries)%Z ->
    skipped m r = false ->
    transport r (S attempts) = Resolved code data duration ->
    P (Some r :: rest) attempts lastError m issued
      (Returned {| s_data := data; s_region := r;
                   s_latency := JS.Math_round duration;
                   s_attempts := S attempts; s_status := code |},
       updateLatencyCache m r duration, issued ++ [(r, S attempts)]).
Hypothesis P_rejected :
  forall r rest attempts lastError m issued err now res,
    (Z.of_nat attempts < maxRetries)%Z ->
    skipped m r = false ->
    transport r (S attempts) = Rejected err now ->
    P rest (S attempts) (Some err) (catch_block m r err now (S attempts))
      (issued ++ [(r, S attempts)]) res ->
    P (Some r :: rest) attempts lastError m issued res.

Lemma failover_loop_ind order :
  forall attempts lastError m issued,
    P order attempts lastError m issued
      (failover_loop transport maxRetries order attempts lastError m issued).
Proof.
  induction order as [|c rest IH]; intros attempts lastError m issued.
  - cbn [failover_loop]. apply P_stop. left. reflexivity.
  - destruct (Z.leb_spec maxRetries (Z.of_nat attempts)) as [Hle | Hlt].
    { rewrite loop_break by exact Hle. apply P_stop. right. exact Hle. }
    destruct (candidate_skipped m c) eqn:Hskip.
    { rewrite loop_skip by exact Hskip. apply P_skip; [assumption..|apply IH]. }
    destruct c as [r|]; [|discriminate]. cbn [candidate_skipped] in Hskip.
    rewrite loop_attempt by assumption.
    destruct (transport r (S attempts)) as [code data duration | err now]
      eqn:Htr.
    + apply P_resolved; assumption.
    + eapply P_rejected; [eassumption..|apply IH].
Qed.
End LoopInduction.

Lemma catch_block_skipped m r err now n c :
  c <> Some r ->
  candidate_skipped (catch_block m r err now n) c = candidate_skipped m c.
Proof.
  intros Hne. destruct c as [r'|]; [|reflexivity].
  cbn [candidate_skipped]. unfold skipped, is_healthy.
  rewrite catch_block_other by congruence. reflexivity.
Qed.

(** The requests a run adds to its trace: numbered from the attempt
    counter on, at most as many as [maxRetries] leaves, sent to candidates
    in the order of the candidate list, each of which passed the guards in
    the state the run started from. *)
Lemma loop_trace transport maxRetries :
  forall order attempts lastError m issued,
    let res := failover_loop transport maxRetries order attempts lastError m
                             issued in
    exists new,
      snd res = issued ++ new
      /\ map snd new = seq (S attempts) (length new)
      /\ (Z.of_nat (length new) <= Z.max 0 (maxRetries - Z.of_nat attempts))%Z
      /\ map (fun req => Some (fst req)) new `sublist_of` order
      /\ (NoDup order -> Forall (fun req => skipped m (fst req) = false) new).
Proof.
  intros order0.
  apply (failover_loop_ind transport maxRetries
           (fun order attempts lastError m issued res =>
              exists new,
                snd res = issued ++ new
                /\ map snd new = seq (S attempts) (length new)
                /\ (Z.of_nat (length new)
                    <= Z.max 0 (maxRetries - Z.of_nat attempts))%Z
                /\ map (fun req => Some (fst req)) new `sublist_of` order
                /\ (NoDup order ->
                    Forall (fun req => skipped m (fst req) = false) new))).
  - intros order attempts lastError m issued _. exists []. cbn [snd].
    rewrite app_nil_r. repeat split; try reflexivity.
    + cbn [length]. lia.
    + apply sublist_nil_l.
    + constructor.
  - intros c rest attempts lastError m issued res Hlt Hskip
           (new & Hres & Hnum & Hlen & Hsub & Hok).
    exists new. repeat split; try assumption.
    + apply sublist_cons, Hsub.
    + intros Hnd. apply NoDup_cons in Hnd as [_ Hnd]. apply Hok, Hnd.
  - intros r rest attempts lastError m issued code data duration Hlt Hskip Htr.
    exists [(r, S attempts)]. cbn [snd]. repeat split.
    + cbn [length]. lia.
    + cbn [map fst]. apply sublist_skip, sublist_nil_l.
    + intros _. repeat constructor. exact Hskip.
  - intros r rest attempts lastError m issued err now res Hlt Hskip Htr
           (new & Hres & Hnum & Hlen & Hsub & Hok).
    exists ((r, S attempts) :: new). repeat split.
    + rewrite Hres, <- app_assoc. reflexivity.
    + cbn [map snd length seq]. rewrite Hnum. reflexivity.
    + cbn [length]. lia.
    + cbn [map fst]. apply sublist_skip, Hsub.
    + intros Hnd. apply NoDup_cons in Hnd as [Hnotin Hnd].
      constructor; [exact Hskip|].
      specialize (Hok Hnd). rewrite Forall_forall in Hok |- *.
      intros [r' n'] Hin. cbn [fst]. specialize (Hok _ Hin). cbn [fst] in Hok.
      assert (Some r' <> Some r) as Hne.
      { intros Heq. apply Hnotin. rewrite <- Heq.
        eapply elem_of_sublist; [|exact Hsub].
        apply list_elem_of_fmap. exists (r', n').
        split; [reflexivity | exact Hin]. }
      pose proof (catch_block_skipped m r err now (S attempts) (Some r') Hne)
        as Heq.
      cbn [candidate_skipped] in Heq. congruence.
Qed.

Lemma Map_set_keys_present {A} (m : list (string * A)) k v :
  is_Some (JS.Map_get m k) -> map fst (JS.Map_set m k v) = map fst m.
Proof.
  unfold JS.Map_get. induction m as [|[k' a] m IH]; cbn [JS.assoc JS.Map_set].
  - intros [x Hx]. discriminate.
  - destruct (String.eqb_spec k' k) as [-> | Hne]; [reflexivity|].
    intros Hsome. cbn [map fst]. rewrite IH by exact Hsome. reflexivity.
Qed.

Lemma mark_unhealthy_keys rh r msg :
  map fst (mark_unhealthy rh r msg) = map fst rh.
Proof.
  unfold mark_unhealthy.
  destruct (JS.Map_get rh r) as [h|] eqn:Hget; [|reflexivity].
  apply Map_set_keys_present. rewrite Hget. eexists. reflexivity.
Qed.

Lemma catch_block_keys m r err now n :
  map fst (regionHealth (catch_block m r err now n))
  = map fst (regionHealth m).
Proof.
  cbn [catch_block regionHealth].
  destruct (server_error err); [apply mark_unhealthy_keys | reflexivity].
Qed.

Lemma issued_region_elem (new : list (string * nat)) r n :
  (r, n) ∈ new -> Some r ∈ map (fun req => Some (fst req)) new.
Proof.
  intros Hin. apply list_elem_of_fmap. exists (r, n).
  split; [reflexivity | exact Hin].
Qed.

(** What a run does to the health map: the regions whose request failed
    with a server error are marked, every other health object and the
    keys of the map stay as they were. *)
Lemma loop_health transport maxRetries :
  forall order attempts previous m issued,
    let res := failover_loop transport maxRetries order attempts previous m
                             issued in
    let m' := snd (fst res) in
    exists new,
      snd res = issued ++ new
      /\ map (fun req => Some (fst req)) new `sublist_of` order
      /\ currentRegion m' = currentRegion m
      /\ map fst (regionHealth m') = map fst (regionHealth m)
      /\ (forall r,
             (forall n err, (r, n) ∈ new ->
                            rejection transport (r, n) = Some err ->
                            server_error err = false) ->
             JS.Map_get (regionHealth m') r = JS.Map_get (regionHealth m) r)
      /\ (NoDup order ->
          forall r n err,
            (r, n) ∈ new -> rejection transport (r, n) = Some err ->
            server_error err = true ->
            is_healthy m' r = false
            /\ lastError <$> JS.Map_get (regionHealth m') r
               = Some (Some (message err))).
Proof.
  intros order0.
  apply (failover_loop_ind transport maxRetries
           (fun order attempts lastError0 m issued res =>
              exists new,
                snd res = issued ++ new
                /\ map (fun req => Some (fst req)) new `sublist_of` order
                /\ currentRegion (snd (fst res)) = currentRegion m
                /\ map fst (regionHealth (snd (fst res)))
                   = map fst (regionHealth m)
                /\ (forall r,
                       (forall n err, (r, n) ∈ new ->
                                      rejection transport (r, n) = Some err ->
                                      server_error err = false) ->
                       JS.Map_get (regionHealth (snd (fst res))) r
                       = JS.Map_get (regionHealth m) r)
                /\ (NoDup order ->
                    forall r n err,
                      (r, n) ∈ new -> rejection transport (r, n) = Some err ->
                      server_error err = true ->
                      is_healthy (snd (fst res)) r = false
                      /\ lastError <$> JS.Map_get
                                         (regionHealth (snd (fst res))) r
                         = Some (Some (message err))))).
  - intros order attempts lastError0 m issued _. exists []. cbn [fst snd].
    rewrite app_nil_r.
    split; [reflexivity|]. split; [apply sublist_nil_l|].
    split; [reflexivity|]. split; [reflexivity|]. split; [reflexivity|].
    intros _ r n err Hin. apply elem_of_nil in Hin. contradiction.
  - intros c rest attempts lastError0 m issued res Hlt Hskip
           (new & Hres & Hsub & Hcur & Hkeys & Hsame & Hmark).
    exists new. split; [exact Hres|]. split; [apply sublist_cons, Hsub|].
    split; [exact Hcur|]. split; [exact Hkeys|]. split; [exact Hsame|].
    intros Hnd. apply NoDup_cons in Hnd as [_ Hnd]. apply Hmark, Hnd.
  - intros r rest attempts lastError0 m issued code data duration Hlt Hskip Htr.
    exists [(r, S attempts)]. cbn [fst snd].
    split; [reflexivity|].
    split; [cbn [map fst]; apply sublist_skip, sublist_nil_l|].
    split; [reflexivity|]. split; [reflexivity|]. split; [reflexivity|].
    intros _ r0 n err Hin Hrej.
    apply list_elem_of_singleton in Hin as [= -> ->].
    unfold rejection in Hrej. cbn [fst snd] in Hrej. rewrite Htr in Hrej.
    discriminate.
  - intros r rest attempts lastError0 m issued err now res Hlt Hskip Htr
           (new & Hres & Hsub & Hcur & Hkeys & Hsame & Hmark).
    assert (rejection transport (r, S attempts) = Some err) as Hrej.
    { unfold rejection. cbn [fst snd]. rewrite Htr. reflexivity. }
    exists ((r, S attempts) :: new).
    split; [|split; [|split; [|split; [|split]]]].
    + rewrite Hres, <- app_assoc. reflexivity.
    + cbn [map fst]. apply sublist_skip, Hsub.
    + rewrite Hcur. reflexivity.
    + rewrite Hkeys. apply catch_block_keys.
    + intros r0 Hr0. rewrite Hsame.
      * destruct (decide (r = r0)) as [<- | Hne].
        -- rewrite catch_block_not_server; [reflexivity|].
           apply (Hr0 (S attempts) err); [apply list_elem_of_here | exact Hrej].
        -- apply catch_block_other, Hne.
      * intros n e Hin. apply Hr0. apply list_elem_of_further, Hin.
    + intros Hnd r0 n e Hin He Hserver.
      apply NoDup_cons in Hnd as [Hnotin Hnd].
      apply elem_of_cons in Hin as [[= -> ->] | Hin].
      * rewrite Hrej in He. injection He as <-.
        assert (JS.Map_get (regionHealth (snd (fst res))) r
                = JS.Map_get
                    (regionHealth (catch_block m r err now (S attempts))) r)
          as Hr.
        { apply Hsame. intros n' e' Hin'. exfalso. apply Hnotin.
          eapply elem_of_sublist; [|exact Hsub].
          apply (issued_region_elem new r n' Hin'). }
        unfold is_healthy. rewrite Hr. cbn [catch_block regionHealth].
        rewrite Hserver, mark_unhealthy_get.
        apply skipped_false_healthy in Hskip. unfold is_healthy in Hskip.
        destruct (JS.Map_get (regionHealth m) r) as [h|]; [|discriminate].
        split; reflexivity.
      * apply (Hmark Hnd r0 n e Hin He Hserver).
Qed.

(** How a run ends, read off its trace. *)
Lemma loop_outcome transport maxRetries :
  forall order attempts lastError m issued,
    let res := failover_loop transport maxRetries order attempts lastError m
                             issued in
    let m' := snd (fst res) in
    exists new,
      snd res = issued ++ new
      /\ match fst (fst res) with
         | AllRegionsFailed n lastError' =>
             n = attempts + length new
             /\ Forall (fun req => is_Some (rejection transport req)) new
             /\ lastError' = match last new with
                             | Some req => rejection transport req
                             | None => lastError
                             end
             /\ latencyCache m' = latencyCache m
         | Returned s =>
             exists before duration,
               new = before ++ [(s_region s, s_attempts s)]
               /\ s_attempts s = attempts + length new
               /\ Forall (fun req => is_Some (rejection transport req)) before
               /\ transport (s_region s) (s_attempts s)
                  = Resolved (s_status s) (s_data s) duration
               /\ s_latency s = JS.Math_round duration
               /\ latencyCache m'
                  = push_latency (latencyCache m) (s_region s) duration
         | TypeError => False
         end.
Proof.
  intros order0.
  apply (failover_loop_ind transport maxRetries
           (fun order attempts lastError0 m issued res =>
    exists new,
      snd res = issued ++ new
      /\ match fst (fst res) with
         | AllRegionsFailed n lastError' =>
             n = attempts + length new
             /\ Forall (fun req => is_Some (rejection transport req)) new
             /\ lastError' = match last new with
                             | Some req => rejection transport req
                             | None => lastError0
                             end
             /\ latencyCache (snd (fst res)) = latencyCache m
         | Returned s =>
             exists before duration,
               new = before ++ [(s_region s, s_attempts s)]
               /\ s_attempts s = attempts + length new
               /\ Forall (fun req => is_Some (rejection transport req)) before
               /\ transport (s_region s) (s_attempts s)
                  = Resolved (s_status s) (s_data s) duration
               /\ s_latency s = JS.Math_round duration
               /\ latencyCache (snd (fst res))
                  = push_latency (latencyCache m) (s_region s) duration
         | TypeError => False
         end)).
  - intros order attempts lastError0 m issued _. exists []. cbn [fst snd].
    rewrite app_nil_r. repeat split; try reflexivity.
    + cbn [length]. lia.
    + constructor.
  - intros c rest attempts lastError0 m issued res Hlt Hskip
           (new & Hres & Hout).
    exists new. split; assumption.
  - intros r rest attempts lastError0 m issued code data duration Hlt Hskip Htr.
    exists [(r, S attempts)]. cbn [fst snd]. split; [reflexivity|].
    exists [], duration. cbn [s_region s_attempts s_status s_data s_latency].
    repeat split; try reflexivity.
    + cbn [length]. lia.
    + constructor.
    + exact Htr.
  - intros r rest attempts lastError0 m issued err now res Hlt Hskip Htr
           (new & Hres & Hout).
    assert (rejection transport (r, S attempts) = Some err) as Hrej.
    { unfold rejection. cbn [fst snd]. rewrite Htr. reflexivity. }
    exists ((r, S attempts) :: new). split.
    { rewrite Hres, <- app_assoc. reflexivity. }
    destruct (fst (fst res)) as [s | n lastError' |]; [| |exact Hout].
    + destruct Hout
        as (before & duration & -> & Hn & Hbefore & Hok & Hlat & Hc).
      exists ((r, S attempts) :: before), duration.
      repeat split; try assumption.
      * cbn [app length]. rewrite !length_app in Hn |- *.
        cbn [length] in Hn |- *. lia.
      * constructor; [rewrite Hrej; eexists; reflexivity | exact Hbefore].
    + destruct Hout as (Hn & Hall & Hlast & Hc).
      repeat split.
      * cbn [length]. lia.
      * constructor; [rewrite Hrej; eexists; reflexivity | exact Hall].
      * rewrite Hlast, last_cons.
        destruct (last new) as [req|]; [reflexivity | symmetry; exact Hrej].
      * exact Hc.
Qed.

(** X1. The requests of one call carry the attempt numbers 1, 2, ... in
    the order they are issued; there are never more of them than
    [maxRetries]; no region is asked twice; and they go through the
    candidate list in its order, without going back. *)
Theorem requests_follow_candidate_order :
  forall (transport : string -> nat -> AxiosOutcome) (maxRetries : Z)
         (m : Manager) (endpoint : string)
         (clientIP userCountry : option string),
    let issued :=
      snd (executeWithFailover transport maxRetries m endpoint clientIP
                               userCountry) in
    map snd issued = seq 1 (length issued)
    /\ (Z.of_nat (length issued) <= Z.max 0 maxRetries)%Z
    /\ NoDup (map fst issued)
    /\ (forall preferredRegion,
           getBestRegion m clientIP userCountry = Normal preferredRegion ->
           map (fun req => Some (fst req)) issued
             `sublist_of` regionOrder_of m preferredRegion).
Proof.
  intros transport maxRetries m endpoint clientIP userCountry.
  unfold executeWithFailover.
  destruct (getBestRegion m clientIP userCountry) as [preferred|].
  - destruct (loop_trace transport maxRetries (regionOrder_of m preferred)
                0 None m []) as (new & Hres & Hnum & Hlen & Hsub & _).
    cbv zeta. rewrite Hres. cbn [app].
    split; [exact Hnum|]. split; [lia|]. split.
    + apply (NoDup_fmap_1 Some). rewrite <- list_fmap_compose.
      eapply sublist_NoDup; [apply (regionOrder_NoDup m preferred)|exact Hsub].
    + intros preferred' [= <-]. exact Hsub.
  - cbn. split; [reflexivity|]. split; [lia|]. split; [constructor|].
    intros preferred. discriminate.
Qed.

(** X3. A call leaves the current region and the keys of the health map
    as they were.  A region whose request failed with a status of 500 or
    more ends up with the healthy flag off and the error message as its
    last error; the health object of every other region, tried or not, is
    the one it had before the call. *)
Theorem run_marks_only_server_failures :
  forall (transport : string -> nat -> AxiosOutcome) (maxRetries : Z)
         (m : Manager) (endpoint : string)
         (clientIP userCountry : option string),
    let run := executeWithFailover transport maxRetries m endpoint clientIP
                                   userCountry in
    let m' := snd (fst run) in
    currentRegion m' = currentRegion m
    /\ map fst (regionHealth m') = map fst (regionHealth m)
    /\ (forall r,
           (forall n err, (r, n) ∈ snd run ->
                          rejection transport (r, n) = Some err ->
                          server_error err = false) ->
           JS.Map_get (regionHealth m') r = JS.Map_get (regionHealth m) r)
    /\ (forall r n err,
           (r, n) ∈ snd run -> rejection transport (r, n) = Some err ->
           server_error err = true ->
           is_healthy m' r = false
           /\ lastError <$> JS.Map_get (regionHealth m') r
              = Some (Some (message err))).
Proof.
  intros transport maxRetries m endpoint clientIP userCountry.
  unfold executeWithFailover.
  destruct (getBestRegion m clientIP userCountry) as [preferred|].
  - destruct (loop_health transport maxRetries (regionOrder_of m preferred)
                0 None m [])
      as (new & Hres & _ & Hcur & Hkeys & Hsame & Hmark).
    cbv zeta. rewrite Hres. cbn [app].
    split; [exact Hcur|]. split; [exact Hkeys|]. split; [exact Hsame|].
    apply Hmark, regionOrder_NoDup.
  - cbn [fst snd]. split; [reflexivity|]. split; [reflexivity|].
    split; [reflexivity|].
    intros r n err Hin. apply elem_of_nil in Hin. contradiction.
Qed.

(** X4. How a call ends can be read off its requests.  If it returns, the
    answer is that of its last request, which went to the returned region
    with the returned attempt number and was resolved, every earlier
    request was rejected, and the measured duration is pushed on the
    returned region's latency window.  If it throws the final error, every
    request was rejected, the error carries their number and the error of
    the last one, and the latency cache is as before. *)
Theorem outcome_matches_requests :
  forall (transport : string -> nat -> AxiosOutcome) (maxRetries : Z)
         (m : Manager) (endpoint : string)
         (clientIP userCountry : option string),
    let run := executeWithFailover transport maxRetries m endpoint clientIP
                                   userCountry in
    let m' := snd (fst run) in
    let issued := snd run in
    match fst (fst run) with
    | Returned s =>
        exists before duration,
          issued = before ++ [(s_region s, s_attempts s)]
          /\ s_attempts s = length issued
          /\ Forall (fun req => is_Some (rejection transport req)) before
          /\ transport (s_region s) (s_attempts s)
             = Resolved (s_status s) (s_data s) duration
          /\ s_latency s = JS.Math_round duration
          /\ latencyCache m'
             = push_latency (latencyCache m) (s_region s) duration
    | AllRegionsFailed n lastError' =>
        n = length issued
        /\ Forall (fun req => is_Some (rejection transport req)) issued
        /\ lastError' = (last issued ≫= rejection transport)
        /\ latencyCache m' = latencyCache m
    | TypeError => issued = [] /\ m' = m
    end.
Proof.
  intros transport maxRetries m endpoint clientIP userCountry.
  unfold executeWithFailover.
  destruct (getBestRegion m clientIP userCountry) as [preferred|];
    [|split; reflexivity].
  destruct (loop_outcome transport maxRetries (regionOrder_of m preferred)
              0 None m []) as (new & Hres & Hout).
  cbv zeta. rewrite Hres. cbn [app].
  destruct (fst (fst (failover_loop transport maxRetries
                        (regionOrder_of m preferred) 0 None m [])))
    as [s | n lastError' |]; [| |contradiction].
  - destruct Hout as (before & duration & Hnew & Hout).
    exists before, duration. split; [exact Hnew | exact Hout].
  - destruct Hout as (Hn & Hall & Hlast & Hc).
    split; [exact Hn|]. split; [exact Hall|]. split; [|exact Hc].
    rewrite Hlast. destruct (last new); reflexivity.
Qed.

(** ** The region selector on a map with a healthy region *)

Lemma Map_get_elem_NoDup {A} (l : list (string * A)) k v :
  NoDup (map fst l) -> (k, v) ∈ l -> JS.Map_get l k = Some v.
Proof.
  unfold JS.Map_get. induction l as [|[k' a] l IH]; intros Hnd Hin.
  - apply elem_of_nil in Hin. contradiction.
  - cbn [map fst] in Hnd. apply NoDup_cons in Hnd as [Hnotin Hnd].
    cbn [JS.assoc]. apply elem_of_cons in Hin as [[= <- <-] | Hin].
    + rewrite String.eqb_refl. reflexivity.
    + destruct (String.eqb_spec k' k) as [-> | Hne]; [|apply IH; assumption].
      exfalso. apply Hnotin.
      apply list_elem_of_fmap. exists (k, v). split; [reflexivity | exact Hin].
Qed.

Lemma healthyRegions_elem m r :
  NoDup (map fst (regionHealth m)) ->
  r ∈ healthyRegions_of m <-> is_healthy m r = true.
Proof.
  intros Hnd. unfold healthyRegions_of, is_healthy. split.
  - intros Hin. apply list_elem_of_fmap in Hin as ([r' h] & -> & Hin).
    apply list_elem_of_In, filter_In in Hin as [Hin Hh].
    apply list_elem_of_In in Hin. cbn [fst snd] in *.
    rewrite (Map_get_elem_NoDup _ _ _ Hnd Hin). exact Hh.
  - destruct (JS.Map_get (regionHealth m) r) as [h|] eqn:Hget; [|discriminate].
    intros Hh. apply Map_get_Some_elem in Hget.
    apply list_elem_of_fmap. exists (r, h). split; [reflexivity|].
    apply list_elem_of_In, filter_In. split; [apply list_elem_of_In, Hget|].
    exact Hh.
Qed.

Lemma includes_elem (l : list string) x : JS.includes l x = true <-> x ∈ l.
Proof.
  unfold JS.includes. rewrite existsb_exists. split.
  - intros (y & Hy & Heq). apply String.eqb_eq in Heq as ->.
    apply list_elem_of_In, Hy.
  - intros Hin. exists x. split; [apply list_elem_of_In, Hin|].
    apply String.eqb_refl.
Qed.

(** On a non-empty list [selectByLatency] returns one of its elements,
    and none of the others ranks strictly better. *)
Lemma selectByLatency_lowest m regionIds :
  regionIds <> [] ->
  exists best,
    selectByLatency m regionIds = Some best
    /\ best ∈ regionIds
    /\ forall x, x ∈ regionIds -> latency_le m best x.
Proof.
  intros Hne.
  assert (exists best, selectByLatency m regionIds = Some best) as [best Hsel].
  { unfold selectByLatency.
    pose proof (select_scan m (head regionIds) regionIds []
                  (head regionIds, JS.Infinity)) as Hscan.
    cbn [app] in Hscan.
    destruct Hscan as [[-> _] | (b & l1 & l2 & -> & _)].
    - left. split; [reflexivity|]. intros r Hr.
      apply elem_of_nil in Hr. contradiction.
    - destruct regionIds as [|h t]; [congruence|]. exists h. reflexivity.
    - exists b. reflexivity. }
  exists best. split; [exact Hsel|].
  destruct (selectByLatency_first_lowest m regionIds best Hsel)
    as (l1 & l2 & -> & H1 & H2).
  split.
  - apply elem_of_app. right. apply list_elem_of_here.
  - intros x Hx. apply elem_of_app in Hx as [Hx | Hx].
    + unfold latency_le. apply lt_asym, H1, Hx.
    + apply elem_of_cons in Hx as [-> | Hx]; [|apply H2, Hx].
      unfold latency_le.
      destruct (JS.lt (latency_key m best) (latency_key m best)) eqn:Hlt;
        [|reflexivity].
      pose proof (lt_asym _ _ Hlt). congruence.
Qed.

Lemma prototype_key_not_geo k :
  k ∈ JS.Object_prototype_keys ->
  String.eqb k "" = false /\ JS.get GEO_REGIONS k = JS.Inherited.
Proof.
  unfold JS.Object_prototype_keys. intros Hin.
  repeat (apply elem_of_cons in Hin as [-> | Hin]; [split; reflexivity|]).
  apply elem_of_nil in Hin. contradiction.
Qed.

(** X6. While some region is healthy, [getBestRegion] either throws
    because the country hint names a member of [Object.prototype], or
    returns a healthy region.  If the hint is a country of [GEO_REGIONS]
    with a healthy region, the result is one of that country's regions and
    no healthy region of the country ranks strictly better; otherwise the
    hint is ignored and no healthy region at all ranks strictly better. *)
Theorem getBestRegion_prefers_geography :
  forall (m : Manager) (clientIP userCountry : option string),
    NoDup (map fst (regionHealth m)) ->
    healthyRegions_of m <> [] ->
    match getBestRegion m clientIP userCountry with
    | Throw_TypeError =>
        exists k, userCountry = Some k /\ k ∈ JS.Object_prototype_keys
    | Normal best =>
        exists r,
          best = Some r
          /\ is_healthy m r = true
          /\ match userCountry ≫= (fun c => JS.assoc c GEO_REGIONS) with
             | Some regions =>
                 if existsb (is_healthy m) regions
                 then r ∈ regions
                      /\ forall x, x ∈ regions -> is_healthy m x = true ->
                                   latency_le m r x
                 else forall x, is_healthy m x = true -> latency_le m r x
             | None => forall x, is_healthy m x = true -> latency_le m r x
             end
    end.
Proof.
  intros m clientIP userCountry Hnd Hsome.
  assert (exists r, selectByLatency m (healthyRegions_of m) = Some r
                    /\ is_healthy m r = true
                    /\ forall x, is_healthy m x = true -> latency_le m r x)
    as (r0 & Hsel0 & Hr0 & Hlow0).
  { destruct (selectByLatency_lowest m _ Hsome) as (r & Hsel & Hin & Hlow).
    exists r. split; [exact Hsel|]. split.
    - apply (healthyRegions_elem m r Hnd), Hin.
    - intros x Hx. apply Hlow, (healthyRegions_elem m x Hnd), Hx. }
  unfold getBestRegion.
  destruct (healthyRegions_of m) as [|h0 hs] eqn:Hhs; [congruence|].
  cbn [length Nat.eqb]. rewrite <- Hhs in *.
  destruct userCountry as [country|]; cbn [mbind option_bind];
    [|exists r0; auto].
  destruct (String.eqb_spec country "") as [-> | Hcountry].
  { exists r0. cbn. auto. }
  unfold JS.get. destruct (JS.assoc country GEO_REGIONS) as [regions|] eqn:Hgeo.
  - assert (List.filter (JS.includes (healthyRegions_of m)) regions
            = List.filter (is_healthy m) regions) as Hfilter.
    { apply filter_ext. intros x.
      destruct (is_healthy m x) eqn:Hx.
      - apply includes_elem, (healthyRegions_elem m x Hnd), Hx.
      - destruct (JS.includes (healthyRegions_of m) x) eqn:Hinc; [|reflexivity].
        apply includes_elem, (healthyRegions_elem m x Hnd) in Hinc.
        congruence. }
    rewrite Hfilter.
    destruct (List.filter (is_healthy m) regions) as [|p ps] eqn:Hpool.
    + cbn [length Nat.ltb Nat.leb].
      assert (existsb (is_healthy m) regions = false) as ->.
      { destruct (existsb (is_healthy m) regions) eqn:Hex; [|reflexivity].
        apply existsb_exists in Hex as (x & Hx & Hh).
        assert (In x (List.filter (is_healthy m) regions)) as Hin
          by (apply filter_In; split; assumption).
        rewrite Hpool in Hin. destruct Hin. }
      exists r0. auto.
    + cbn [length Nat.ltb Nat.leb].
      assert (existsb (is_healthy m) regions = true) as ->.
      { apply existsb_exists. exists p.
        apply (filter_In (is_healthy m) p regions). rewrite Hpool.
        left. reflexivity. }
      rewrite <- Hpool.
      destruct (selectByLatency_lowest m (List.filter (is_healthy m) regions))
        as (r & Hsel & Hin & Hlow); [rewrite Hpool; discriminate|].
      apply list_elem_of_In, filter_In in Hin as [Hin Hh].
      exists r. split; [exact Hsel|]. split; [exact Hh|].
      split; [apply list_elem_of_In, Hin|].
      intros x Hx Hxh. apply Hlow, list_elem_of_In, filter_In.
      split; [apply list_elem_of_In, Hx | exact Hxh].
  - destruct (existsb (String.eqb country) JS.Object_prototype_keys) eqn:Hproto.
    + exists country. split; [reflexivity|].
      apply existsb_exists in Hproto as (k & Hk & Heq).
      apply String.eqb_eq in Heq as ->. apply list_elem_of_In, Hk.
    + exists r0. auto.
Qed.

(** X6 at the manager whose regions are all up, for a client in
    Germany. *)
Lemma getBestRegion_prefers_geography_witness :
  match getBestRegion manager_up None (Some "DE") with
  | Throw_TypeError =>
      exists k, Some "DE" = Some k /\ k ∈ JS.Object_prototype_keys
  | Normal best =>
      exists r,
        best = Some r
        /\ is_healthy manager_up r = true
        /\ match Some "DE" ≫= (fun c => JS.assoc c GEO_REGIONS) with
           | Some regions =>
               if existsb (is_healthy manager_up) regions
               then r ∈ regions
                    /\ forall x, x ∈ regions ->
                                 is_healthy manager_up x = true ->
                                 latency_le manager_up r x
               else forall x, is_healthy manager_up x = true ->
                              latency_le manager_up r x
           | None => forall x, is_healthy manager_up x = true ->
                               latency_le manager_up r x
           end
  end.
Proof.
  apply (getBestRegion_prefers_geography manager_up None (Some "DE")).
  - apply (bool_decide_unpack _). vm_compute. reflexivity.
  - vm_compute. discriminate.
Defined.

(** X7. A country hint that names a member of [Object.prototype], such
    as "constructor" or "toString", makes [getBestRegion] throw a
    [TypeError] whenever some region is healthy, and [executeWithFailover]
    then throws it too, before any request and without touching the
    manager. *)
Theorem prototype_country_throws :
  forall (transport : string -> nat -> AxiosOutcome) (maxRetries : Z)
         (m : Manager) (endpoint : string) (clientIP : option string)
         (k : string),
    k ∈ JS.Object_prototype_keys ->
    healthyRegions_of m <> [] ->
    getBestRegion m clientIP (Some k) = Throw_TypeError
    /\ executeWithFailover transport maxRetries m endpoint clientIP (Some k)
       = (TypeError, m, []).
Proof.
  intros transport maxRetries m endpoint clientIP k Hk Hsome.
  assert (getBestRegion m clientIP (Some k) = Throw_TypeError) as Hbest.
  { unfold getBestRegion.
    destruct (healthyRegions_of m) as [|h0 hs]; [congruence|].
    cbn [length Nat.eqb].
    destruct (prototype_key_not_geo k Hk) as [-> ->]. reflexivity. }
  split; [exact Hbest|]. unfold executeWithFailover. rewrite Hbest.
  reflexivity.
Qed.

(** X7 for the hint "constructor" while every region is up. *)
Lemma prototype_country_throws_witness :
  getBestRegion manager_up None (Some "constructor") = Throw_TypeError
  /\ executeWithFailover transport_ok 3 manager_up "/api/scan" None
                         (Some "constructor")
     = (TypeError, manager_up, []).
Proof.
  apply (prototype_country_throws transport_ok 3 manager_up "/api/scan" None
           "constructor").
  - apply list_elem_of_here.
  - vm_compute. discriminate.
Defined.

(** ** Probes of one tick do not disturb each other *)

(** X8. What a tick leaves for a region, its health object and its
    latency window, depends on that region's own probe only: not on how
    the probes of the other regions settle, and not on the order in which
    the probes settle. *)
Theorem tick_regions_are_isolated :
  forall (m : Manager) (probe1 probe2 : string -> ProbeOutcome)
         (order1 order2 : list string) (r : string) (config : RegionConfig),
    order1 ≡ₚ JS.keys REGIONS ->
    order2 ≡ₚ JS.keys REGIONS ->
    JS.assoc r REGIONS = Some config ->
    probe1 r = probe2 r ->
    JS.Map_get (regionHealth (checkAllRegionsHealth m probe1 order1)) r
    = JS.Map_get (regionHealth (checkAllRegionsHealth m probe2 order2)) r
    /\ latencyCache (checkAllRegionsHealth m probe1 order1) !! r
       = latencyCache (checkAllRegionsHealth m probe2 order2) !! r.
Proof.
  intros m probe1 probe2 order1 order2 r config Hp1 Hp2 Hconfig Hsame.
  assert (r ∈ JS.keys REGIONS) as Hin.
  { unfold JS.keys. clear -Hconfig.
    induction REGIONS as [|[k c] l IH]; [discriminate|].
    cbn [JS.assoc] in Hconfig. cbn [map fst].
    destruct (String.eqb_spec k r) as [-> | Hne].
    - apply list_elem_of_here.
    - apply list_elem_of_further, IH, Hconfig. }
  destruct (tick_settled probe1 order1 r config m) as [-> ->];
    [rewrite Hp1; apply REGIONS_keys_NoDup | rewrite Hp1; exact Hin
     | exact Hconfig |].
  destruct (tick_settled probe2 order2 r config m) as [-> ->];
    [rewrite Hp2; apply REGIONS_keys_NoDup | rewrite Hp2; exact Hin
     | exact Hconfig |].
  rewrite Hsame. split; reflexivity.
Qed.

(** X8 for us-east-1, once with every region up and the probes settling
    in declaration order, once with the other regions down and the probes
    settling in the opposite order. *)
Lemma tick_regions_are_isolated_witness :
  JS.Map_get
    (regionHealth
       (checkAllRegionsHealth manager_down probes_up (JS.keys REGIONS)))
    "us-east-1"
  = JS.Map_get
      (regionHealth
         (checkAllRegionsHealth manager_down probes_east_only
                                (reverse (JS.keys REGIONS))))
      "us-east-1"
  /\ latencyCache
       (checkAllRegionsHealth manager_down probes_up (JS.keys REGIONS))
     !! "us-east-1"
     = latencyCache
         (checkAllRegionsHealth manager_down probes_east_only
                                (reverse (JS.keys REGIONS)))
       !! "us-east-1".
Proof.
  assert (JS.assoc "us-east-1" REGIONS
          = Some {| name := "US East (Virginia)";
                    endpoint := "https://us-east-api.web-scan.com";
                    priority := 1; healthCheck := "/health";
                    latencyThreshold := 200;
                    timezone := "America/New_York" |}) as Hconfig
    by reflexivity.
  apply (tick_regions_are_isolated manager_down probes_up probes_east_only
           (JS.keys REGIONS) (reverse (JS.keys REGIONS)) "us-east-1" _
           (Permutation_refl _) (reverse_Permutation _) Hconfig).
  reflexivity.
Defined.

(** ** Invariants of the manager *)

Lemma Map_set_keys {A} (m : list (string * A)) k v :
  map fst (JS.Map_set m k v)
  = match JS.Map_get m k with
    | Some _ => map fst m
    | None => map fst m ++ [k]
    end.
Proof.
  unfold JS.Map_get. induction m as [|[k' a] m IH]; cbn [JS.assoc JS.Map_set].
  - reflexivity.
  - destruct (String.eqb_spec k' k) as [-> | Hne]; [reflexivity|].
    cbn [map fst]. rewrite IH. destruct (JS.assoc k m); reflexivity.
Qed.

Lemma Map_get_None_keys {A} (m : list (string * A)) k :
  JS.Map_get m k = None -> k ∉ map fst m.
Proof.
  unfold JS.Map_get. induction m as [|[k' a] m IH]; cbn [JS.assoc map fst].
  - intros _. apply not_elem_of_nil.
  - destruct (String.eqb_spec k' k) as [-> | Hne]; [discriminate|].
    intros Hnone. apply not_elem_of_cons. split; [congruence | apply IH, Hnone].
Qed.

Lemma Map_set_NoDup {A} (m : list (string * A)) k v :
  NoDup (map fst m) -> NoDup (map fst (JS.Map_set m k v)).
Proof.
  intros Hnd. rewrite Map_set_keys.
  destruct (JS.Map_get m k) eqn:Hget; [exact Hnd|].
  apply NoDup_app. split; [exact Hnd|]. split.
  - intros x Hx Hk. apply list_elem_of_singleton in Hk as ->.
    apply (Map_get_None_keys m k Hget), Hx.
  - apply NoDup_singleton.
Qed.

Lemma assoc_Some_keys {A} (obj : list (string * A)) k a :
  JS.assoc k obj = Some a -> k ∈ JS.keys obj.
Proof.
  unfold JS.keys. induction obj as [|[k' a'] obj IH]; [discriminate|].
  cbn [JS.assoc map fst].
  destruct (String.eqb_spec k' k) as [-> | Hne].
  - intros _. apply list_elem_of_here.
  - intros Hget. apply list_elem_of_further, IH, Hget.
Qed.

Lemma average_is_Some cache r :
  is_Some (average_of cache r)
  <-> exists w, cache !! r = Some w /\ w <> [].
Proof.
  unfold average_of.
  destruct (cache !! r) as [w|]; cbn [default from_option id].
  - destruct w as [|x w]; cbn [length Nat.eqb].
    + split; [intros [y Hy]; discriminate | intros (w' & [= <-] & Hne)].
      congruence.
    + split; [|intros _; eexists; reflexivity].
      intros _. eexists. split; [reflexivity | discriminate].
  - cbn. split; [intros [y Hy]; discriminate | intros (w' & Hw & _)].
    discriminate.
Qed.

Lemma push_latency_window cache r lat :
  (forall r' w, cache !! r' = Some w -> w <> [] /\ length w <= 10) ->
  forall r' w, push_latency cache r lat !! r' = Some w ->
               w <> [] /\ length w <= 10.
Proof.
  intros Hall r' w. destruct (decide (r = r')) as [<- | Hne].
  - rewrite push_latency_lookup. intros [= <-]. cbv zeta.
    assert (length (default [] (cache !! r)) <= 10) as Hold.
    { destruct (cache !! r) as [w0|] eqn:Hw0; [|cbn; lia].
      apply (Hall r w0 Hw0). }
    destruct (default [] (cache !! r)) as [|x old]; cbn [app length] in *.
    + cbn. split; [discriminate | lia].
    + destruct (Nat.ltb_spec 10 (S (length (old ++ [lat])))) as [Hlt | Hge];
        rewrite length_app in *; cbn [length] in *.
      * unfold JS.shift. cbn [tail]. rewrite length_app. cbn [length].
        split; [destruct old; discriminate | lia].
      * cbn [length]. rewrite length_app. cbn [length].
        split; [discriminate | lia].
  - rewrite push_latency_lookup_ne by exact Hne. apply Hall.
Qed.

Lemma push_latency_average cache r lat r' :
  (forall r0 w, cache !! r0 = Some w -> w <> [] /\ length w <= 10) ->
  r = r' \/ is_Some (average_of cache r') ->
  is_Some (average_of (push_latency cache r lat) r').
Proof.
  intros Hall Hcase. apply average_is_Some.
  destruct (push_latency cache r lat !! r') as [w|] eqn:Hw.
  - exists w. split; [reflexivity|].
    apply (push_latency_window cache r lat Hall r' w Hw).
  - exfalso. destruct (decide (r = r')) as [<- | Hne].
    + rewrite push_latency_lookup in Hw. discriminate.
    + rewrite push_latency_lookup_ne in Hw by exact Hne.
      destruct Hcase as [-> | Hsome]; [congruence|].
      apply average_is_Some in Hsome as (w' & Hw' & _). congruence.
Qed.

Lemma constructor_invariant env : manager_invariant (constructor env).
Proof.
  unfold manager_invariant. cbn [constructor regionHealth latencyCache
                                  failoverHistory map length].
  split; [constructor|]. split; [intros r h; discriminate|].
  split; [intros r w Hw; rewrite lookup_empty in Hw; discriminate|].
  split; [lia | constructor].
Qed.

Lemma updateLatencyCache_invariant m r lat :
  manager_invariant m -> manager_invariant (updateLatencyCache m r lat).
Proof.
  intros (Hnd & Hrec & Hwin & Hlen & Hlog).
  unfold manager_invariant.
  cbn [updateLatencyCache regionHealth latencyCache failoverHistory].
  split; [exact Hnd|]. split; [|split; [|split; assumption]].
  - intros r' h Hget. destruct (Hrec r' h Hget) as (Hkey & Hid & Hh).
    split; [exact Hkey|]. split; [exact Hid|].
    intros Hhealthy. destruct (Hh Hhealthy) as (Hst & Hcode & Havg).
    split; [exact Hst|]. split; [exact Hcode|].
    apply push_latency_average; [exact Hwin | right; exact Havg].
  - apply push_latency_window, Hwin.
Qed.

Lemma settle_probe_invariant m r config o :
  JS.assoc r REGIONS = Some config ->
  manager_invariant m -> manager_invariant (settle_probe m r config o).
Proof.
  intros Hconfig (Hnd & Hrec & Hwin & Hlen & Hlog).
  unfold manager_invariant.
  split; [|split; [|split; [|split]]].
  - unfold settle_probe. destruct o; apply Map_set_NoDup, Hnd.
  - intros r' h. destruct (decide (r = r')) as [<- | Hne].
    + rewrite settle_probe_get. intros [= <-].
      split; [apply (assoc_Some_keys _ _ _ Hconfig)|].
      split; [destruct o; reflexivity|].
      destruct o as [code lat now | msg now];
        cbn [probe_health healthy status statusCode]; [|discriminate].
      intros Hh. apply andb_prop in Hh as [Hcode _].
      rewrite Hcode. apply Z.eqb_eq in Hcode as ->.
      split; [reflexivity|]. split; [reflexivity|].
      unfold getAverageLatency.
      rewrite settle_probe_cache. cbn [window_after].
      apply push_latency_average; [exact Hwin | left; reflexivity].
    + rewrite settle_probe_get_ne by exact Hne. intros Hget.
      destruct (Hrec r' h Hget) as (Hkey & Hid & Hh).
      split; [exact Hkey|]. split; [exact Hid|].
      intros Hhealthy. destruct (Hh Hhealthy) as (Hst & Hcode & Havg).
      split; [exact Hst|]. split; [exact Hcode|].
      unfold getAverageLatency. rewrite settle_probe_cache.
      destruct o as [code lat now | msg now]; cbn [window_after];
        [|exact Havg].
      apply push_latency_average; [exact Hwin | right; exact Havg].
  - rewrite settle_probe_cache.
    destruct o as [code lat now | msg now]; cbn [window_after];
      [apply push_latency_window, Hwin | exact Hwin].
  - unfold settle_probe. destruct o; exact Hlen.
  - unfold settle_probe. destruct o; exact Hlog.
Qed.

Lemma tick_invariant probe order :
  forall m,
    manager_invariant m ->
    manager_invariant (checkAllRegionsHealth m probe order).
Proof.
  unfold checkAllRegionsHealth.
  induction order as [|r order IH]; intros m Hinv; cbn [foldl]; [exact Hinv|].
  apply IH. destruct (JS.assoc r REGIONS) as [config|] eqn:Hconfig;
    [|exact Hinv].
  apply (settle_probe_invariant m r config (probe r) Hconfig Hinv).
Qed.

Lemma record_failover_length history ev :
  length history <= 100 -> length (record_failover history ev) <= 100.
Proof.
  intros Hlen. unfold record_failover.
  destruct (Nat.ltb_spec 100 (length (history ++ [ev]))) as [Hlt | Hge];
    [|exact Hge].
  unfold JS.shift. destruct history as [|e history]; cbn [app tail length] in *.
  - lia.
  - rewrite length_app in *. cbn [length] in *. lia.
Qed.

Lemma record_failover_Forall (P : FailoverEvent -> Prop) history ev :
  Forall P history -> P ev -> Forall P (record_failover history ev).
Proof.
  intros Hall Hev. unfold record_failover.
  assert (Forall P (history ++ [ev])) as Hnew.
  { apply Forall_app. split; [exact Hall | repeat constructor; exact Hev]. }
  destruct (100 <? length (history ++ [ev])); [|exact Hnew].
  unfold JS.shift. destruct (history ++ [ev]) as [|e l]; [constructor|].
  apply Forall_cons in Hnew as [_ Hnew]. exact Hnew.
Qed.

Lemma catch_block_invariant m r err now n :
  skipped m r = false -> 1 <= n ->
  manager_invariant m -> manager_invariant (catch_block m r err now n).
Proof.
  intros Hskip Hn (Hnd & Hrec & Hwin & Hlen & Hlog).
  apply skipped_false_healthy in Hskip. unfold is_healthy in Hskip.
  destruct (JS.Map_get (regionHealth m) r) as [h0|] eqn:Hget0;
    [|discriminate].
  destruct (Hrec r h0 Hget0) as (Hkey0 & Hid0 & _).
  unfold manager_invariant. split; [|split; [|split; [|split]]].
  - rewrite catch_block_keys. exact Hnd.
  - intros r' h. destruct (decide (r = r')) as [<- | Hne].
    + cbn [catch_block regionHealth].
      destruct (server_error err).
      * rewrite mark_unhealthy_get, Hget0. intros [= <-].
        cbn [regionId healthy]. split; [exact Hkey0|]. split; [exact Hid0|].
        discriminate.
      * intros Hget. apply (Hrec r h Hget).
    + rewrite catch_block_other by exact Hne. intros Hget.
      apply (Hrec r' h Hget).
  - exact Hwin.
  - cbn [catch_block failoverHistory]. apply record_failover_length, Hlen.
  - cbn [catch_block failoverHistory].
    apply record_failover_Forall; [exact Hlog|].
    cbn [failover_event fromRegion attempt]. split; assumption.
Qed.

Lemma loop_invariant transport maxRetries :
  forall order attempts previous m issued,
    manager_invariant m ->
    manager_invariant
      (snd (fst (failover_loop transport maxRetries order attempts previous m
                               issued))).
Proof.
  intros order0.
  apply (failover_loop_ind transport maxRetries
           (fun order attempts previous m issued res =>
              manager_invariant m -> manager_invariant (snd (fst res)))).
  - intros order attempts previous m issued _ Hinv. exact Hinv.
  - intros c rest attempts previous m issued res _ _ IH. exact IH.
  - intros r rest attempts previous m issued code data duration _ _ _ Hinv.
    apply updateLatencyCache_invariant, Hinv.
  - intros r rest attempts previous m issued err now res _ Hskip _ IH Hinv.
    apply IH, catch_block_invariant; [exact Hskip | lia | exact Hinv].
Qed.

Lemma execute_invariant transport maxRetries m endpoint clientIP userCountry :
  manager_invariant m ->
  manager_invariant
    (snd (fst (executeWithFailover transport maxRetries m endpoint clientIP
                                   userCountry))).
Proof.
  intros Hinv. unfold executeWithFailover.
  destruct (getBestRegion m clientIP userCountry) as [preferred|];
    [|exact Hinv].
  apply loop_invariant, Hinv.
Qed.

(** X9. Whatever ticks, recorded samples and [executeWithFailover] calls
    a manager has gone through since its construction: its health map has
    exactly one entry per key, only for regions of [REGIONS] and each
    under its own identifier; a region marked healthy got a 200 at its last
    probe and has a latency average; every latency window holds between
    one and ten samples; and the failover log holds at most 100 events,
    each for a region of [REGIONS] with an attempt number from 1 on. *)
Theorem manager_invariant_holds :
  forall (env : option string) (cs : list Call),
    manager_invariant (fst (calls env cs)).
Proof.
  intros env cs. unfold calls.
  induction cs as [|c cs IH] using rev_ind.
  - apply constructor_invariant.
  - rewrite foldl_app. cbn [foldl].
    destruct (foldl call_step (constructor env, []) cs) as [m log].
    cbn [fst] in IH.
    destruct c as [probe order | r lat | tr maxR endpoint ip country];
      cbn [call_step fst snd].
    + apply tick_invariant, IH.
    + apply updateLatencyCache_invariant, IH.
    + apply execute_invariant, IH.
Qed.

(** ** Status and statistics *)

Lemma Map_get_keys_Some {A} (m : list (string * A)) k :
  k ∈ map fst m -> is_Some (JS.Map_get m k).
Proof.
  intros Hin. destruct (JS.Map_get m k) eqn:Hget; [eexists; reflexivity|].
  exfalso. apply (Map_get_None_keys m k Hget), Hin.
Qed.

Lemma region_key_Own r :
  r ∈ JS.keys REGIONS -> exists config, JS.get REGIONS r = JS.Own config
                                       /\ JS.assoc r REGIONS = Some config.
Proof.
  intros Hin. unfold JS.get.
  destruct (JS.assoc r REGIONS) as [config|] eqn:Hget;
    [exists config; split; reflexivity|].
  exfalso. apply (Map_get_None_keys REGIONS r Hget), Hin.
Qed.

Lemma region_key_not_prototype r :
  r ∈ JS.keys REGIONS -> r ∉ JS.Object_prototype_keys.
Proof.
  intros Hin Hproto.
  destruct (region_key_Own r Hin) as (config & _ & Hget).
  destruct (prototype_key_not_geo r Hproto) as [_ Hgeo].
  unfold JS.Object_prototype_keys in Hproto.
  repeat (apply elem_of_cons in Hproto as [-> | Hproto]; [discriminate|]).
  apply elem_of_nil in Hproto. contradiction.
Qed.

(** What [getRegionStatus] has built after the entries [seen] of a health
    map whose keys are regions of [REGIONS]. *)
Lemma status_scan m seen :
  forall status0,
    NoDup (map fst (st_regions status0) ++ map fst seen) ->
    (forall r, r ∈ map fst seen -> r ∈ JS.keys REGIONS) ->
    exists status,
      foldl (status_step m) (Normal status0) seen = Normal status
      /\ st_currentRegion status = st_currentRegion status0
      /\ st_totalRegions status = st_totalRegions status0
      /\ st_lastUpdate status = st_lastUpdate status0
      /\ st_healthyRegions status
         = st_healthyRegions status0
           + length (List.filter (fun e => healthy (snd e)) seen)
      /\ st_healthyRegions status + st_unhealthyRegions status
         = st_healthyRegions status0 + st_unhealthyRegions status0
           + length seen
      /\ map fst (st_regions status)
         = map fst (st_regions status0) ++ map fst seen
      /\ forall r,
           JS.Map_get (st_regions status) r
           = match JS.Map_get seen r with
             | Some health =>
                 config ← JS.assoc r REGIONS;
                 Some {| rs_health := health;
                         rs_name := Some (name config);
                         rs_endpoint := Some (endpoint config);
                         rs_averageLatency :=
                           rounded_average (getAverageLatency m r);
                         rs_priority := Some (priority config);
                         rs_timezone := Some (timezone config) |}
             | None => JS.Map_get (st_regions status0) r
             end.
Proof.
  induction seen as [|[r h] seen IH]; intros status0 Hnd Hkeys.
  - exists status0. cbn [foldl map length List.filter].
    rewrite app_nil_r. repeat split; try reflexivity; lia.
  - cbn [foldl status_step].
    destruct (region_key_Own r) as (config & Hown & Hassoc).
    { apply Hkeys. cbn [map fst]. apply list_elem_of_here. }
    rewrite Hown.
    assert (String.eqb r "__proto__" = false) as Hproto.
    { destruct (String.eqb_spec r "__proto__") as [-> | Hne]; [|reflexivity].
      discriminate. }
    rewrite Hproto.
    cbn [map fst] in Hnd.
    assert (r ∉ map fst (st_regions status0)) as Hfresh.
    { intros Hin. apply NoDup_app in Hnd as (_ & Hdisj & _).
      apply (Hdisj r Hin), list_elem_of_here. }
    assert (JS.Map_get (st_regions status0) r = None) as Hnone.
    { destruct (JS.Map_get (st_regions status0) r) as [x|] eqn:Hget;
        [|reflexivity].
      exfalso. apply Hfresh. apply Map_get_Some_elem in Hget.
      apply list_elem_of_fmap. exists (r, x). split; [reflexivity|exact Hget]. }
    match goal with
    | |- exists status, foldl _ (Normal ?s1) seen = _ /\ _ =>
        destruct (IH s1) as (status & Hrun & Hcur & Htot & Hupd & Hhealthy
                             & Hsum & Hks & Hget)
    end.
    { cbn [st_regions]. rewrite Map_set_keys, Hnone, <- app_assoc. exact Hnd. }
    { intros r' Hr'. apply Hkeys. cbn [map fst].
      apply list_elem_of_further, Hr'. }
    exists status. cbn [st_currentRegion st_totalRegions st_lastUpdate
                        st_healthyRegions st_unhealthyRegions st_regions]
      in *.
    split; [exact Hrun|]. split; [exact Hcur|]. split; [exact Htot|].
    split; [exact Hupd|].
    cbn [List.filter snd length map fst].
    split; [|split; [|split]].
    + rewrite Hhealthy. destruct (healthy h); cbn [length]; lia.
    + rewrite Hsum. destruct (healthy h); lia.
    + rewrite Hks, Map_set_keys, Hnone, <- app_assoc. reflexivity.
    + intros r'. rewrite Hget. unfold JS.Map_get at 1 3. cbn [JS.assoc].
      fold (JS.Map_get seen r').
      destruct (String.eqb_spec r r') as [<- | Hne].
      * destruct (JS.Map_get seen r) as [h'|] eqn:Hseen.
        -- exfalso. apply NoDup_app in Hnd as (_ & _ & Hnd).
           apply NoDup_cons in Hnd as [Hnotin _]. apply Hnotin.
           apply Map_get_Some_elem in Hseen.
           apply list_elem_of_fmap. exists (r, h'). split; [reflexivity|].
           exact Hseen.
        -- rewrite Map_get_set_eq, Hassoc. reflexivity.
      * destruct (JS.Map_get seen r'); [reflexivity|].
        apply Map_get_set_ne, Hne.
Qed.

(** X10. On a manager that satisfies the invariant [getRegionStatus]
    returns without throwing: its healthy count is the number of health
    objects marked healthy, healthy and unhealthy counts add up to the
    size of the health map, which never exceeds [totalRegions], and every
    region of the health map, in the order of the map, is described by its
    health object, its configuration and its rounded latency average. *)
Theorem region_status_counts :
  forall (m : Manager) (now : string),
    manager_invariant m ->
    exists status,
      getRegionStatus m now = Normal status
      /\ st_currentRegion status = currentRegion m
      /\ st_totalRegions status = 4
      /\ st_healthyRegions status = length (healthyRegions_of m)
      /\ st_healthyRegions status + st_unhealthyRegions status
         = length (regionHealth m)
      /\ length (regionHealth m) <= st_totalRegions status
      /\ map fst (st_regions status) = map fst (regionHealth m)
      /\ forall r,
           JS.Map_get (st_regions status) r
           = (health ← JS.Map_get (regionHealth m) r;
              config ← JS.assoc r REGIONS;
              Some {| rs_health := health;
                      rs_name := Some (name config);
                      rs_endpoint := Some (endpoint config);
                      rs_averageLatency :=
                        rounded_average (getAverageLatency m r);
                      rs_priority := Some (priority config);
                      rs_timezone := Some (timezone config) |}).
Proof.
  intros m now (Hnd & Hrec & _).
  assert (forall r, r ∈ map fst (regionHealth m) -> r ∈ JS.keys REGIONS)
    as Hkeys.
  { intros r Hin. destruct (Map_get_keys_Some _ _ Hin) as [h Hget].
    apply (Hrec r h Hget). }
  unfold getRegionStatus.
  match goal with
  | |- exists status, foldl _ (Normal ?s0) _ = _ /\ _ =>
      destruct (status_scan m (regionHealth m) s0 Hnd Hkeys)
        as (status & Hrun & Hcur & Htot & _ & Hhealthy & Hsum & Hks & Hget)
  end.
  cbn [st_currentRegion st_totalRegions st_healthyRegions
       st_unhealthyRegions st_regions] in *.
  exists status. split; [exact Hrun|]. split; [exact Hcur|].
  split; [rewrite Htot; reflexivity|]. split.
  { rewrite Hhealthy. unfold healthyRegions_of.
    rewrite length_map. reflexivity. }
  split; [exact Hsum|]. split.
  { rewrite Htot, <- (length_map fst (regionHealth m)).
    apply submseteq_length, NoDup_submseteq; [exact Hnd | exact Hkeys]. }
  split; [exact Hks|].
  intros r. rewrite Hget.
  destruct (JS.Map_get (regionHealth m) r); reflexivity.
Qed.

Lemma manager_up_invariant : manager_invariant manager_up.
Proof. apply tick_invariant, constructor_invariant. Defined.

(** X10 at the manager whose regions are all up. *)
Lemma region_status_counts_witness :
  exists status,
    getRegionStatus manager_up "2024-01-01T00:00:10.000Z" = Normal status
    /\ st_currentRegion status = currentRegion manager_up
    /\ st_totalRegions status = 4
    /\ st_healthyRegions status = length (healthyRegions_of manager_up)
    /\ st_healthyRegions status + st_unhealthyRegions status
       = length (regionHealth manager_up)
    /\ length (regionHealth manager_up) <= st_totalRegions status
    /\ map fst (st_regions status) = map fst (regionHealth manager_up)
    /\ forall r,
         JS.Map_get (st_regions status) r
         = (health ← JS.Map_get (regionHealth manager_up) r;
            config ← JS.assoc r REGIONS;
            Some {| rs_health := health;
                    rs_name := Some (name config);
                    rs_endpoint := Some (endpoint config);
                    rs_averageLatency :=
                      rounded_average (getAverageLatency manager_up r);
                    rs_priority := Some (priority config);
                    rs_timezone := Some (timezone config) |}).
Proof.
  exact (region_status_counts manager_up "2024-01-01T00:00:10.000Z"
           manager_up_invariant).
Defined.

(** ** Requests on a manager that satisfies the invariant *)

(** X2. On a manager that satisfies the invariant, every request of a
    call goes to a region that [REGIONS] has an entry for and whose health
    object was marked healthy when the call started: a region without a
    health object, or with the healthy flag off, is never asked. *)
Theorem requests_go_to_healthy_regions :
  forall (transport : string -> nat -> AxiosOutcome) (maxRetries : Z)
         (m : Manager) (endpoint : string)
         (clientIP userCountry : option string) (r : string) (n : nat),
    manager_invariant m ->
    (r, n) ∈ snd (executeWithFailover transport maxRetries m endpoint clientIP
                                      userCountry) ->
    is_healthy m r = true
    /\ exists config, JS.get REGIONS r = JS.Own config.
Proof.
  intros transport maxRetries m endpoint clientIP userCountry r n Hinv.
  unfold executeWithFailover.
  destruct (getBestRegion m clientIP userCountry) as [preferred|].
  - destruct (loop_trace transport maxRetries (regionOrder_of m preferred)
                0 None m []) as (new & Hres & _ & _ & _ & Hok).
    rewrite Hres. cbn [app]. intros Hin.
    specialize (Hok (regionOrder_NoDup m preferred)).
    rewrite Forall_forall in Hok. specialize (Hok _ Hin). cbn [fst] in Hok.
    apply skipped_false_healthy in Hok. split; [exact Hok|].
    unfold is_healthy in Hok.
    destruct (JS.Map_get (regionHealth m) r) as [h|] eqn:Hget;
      [|discriminate].
    destruct Hinv as (_ & Hrec & _).
    destruct (Hrec r h Hget) as (Hkey & _).
    destruct (region_key_Own r Hkey) as (config & Hown & _).
    exists config. exact Hown.
  - cbn [snd]. intros Hin. apply elem_of_nil in Hin. contradiction.
Qed.

(** X2 at the request the second region gets after a 404 from the
    first. *)
Lemma requests_go_to_healthy_regions_witness :
  is_healthy manager_up "us-west-2" = true
  /\ exists config, JS.get REGIONS "us-west-2" = JS.Own config.
Proof.
  apply (requests_go_to_healthy_regions transport_404 3 manager_up
           "/api/scan" None None "us-west-2" 2 manager_up_invariant).
  vm_compute. apply list_elem_of_further, list_elem_of_here.
Defined.

Lemma tally_total_get (acc : list (string * Tally)) t k :
  tally_total acc = Some t -> JS.Map_get acc k <> Some Garbled.
Proof.
  unfold JS.Map_get. revert t.
  induction acc as [|[k' v] acc IH]; intros t; cbn [tally_total JS.assoc].
  - discriminate.
  - destruct v as [n|]; [|discriminate].
    destruct (tally_total acc) as [t'|]; [|discriminate]. intros _.
    destruct (String.eqb k' k); [discriminate | apply (IH t'); reflexivity].
Qed.

Lemma tally_total_set (acc : list (string * Tally)) t k :
  tally_total acc = Some t ->
  tally_total
    (JS.Map_set acc k
       (Count (match JS.Map_get acc k with
               | Some (Count n) => n + 1
               | _ => 0 + 1
               end)))
  = Some (t + 1).
Proof.
  unfold JS.Map_get. revert t.
  induction acc as [|[k' v] acc IH]; intros t;
    cbn [tally_total JS.assoc JS.Map_set].
  - intros [= <-]. reflexivity.
  - destruct v as [n|]; [|discriminate].
    destruct (tally_total acc) as [t'|] eqn:Ht'; [|discriminate].
    cbn [fmap option_fmap option_map]. intros [= <-].
    destruct (String.eqb k' k); cbn [tally_total].
    + rewrite Ht'. cbn. f_equal. lia.
    + rewrite (IH t') by reflexivity. cbn. f_equal. lia.
Qed.

(** One event for a region that is no member of [Object.prototype]. *)
Lemma tally_step_count (acc : list (string * Tally)) t ev :
  tally_total acc = Some t ->
  fromRegion ev ∉ JS.Object_prototype_keys ->
  tally_step acc ev
  = JS.Map_set acc (fromRegion ev)
      (Count (match JS.Map_get acc (fromRegion ev) with
              | Some (Count n) => n + 1
              | _ => 0 + 1
              end)).
Proof.
  intros Ht Hproto. unfold tally_step, JS.get.
  pose proof (tally_total_get acc t (fromRegion ev) Ht) as Hget.
  fold (JS.Map_get acc (fromRegion ev)).
  destruct (JS.Map_get acc (fromRegion ev)) as [[n|]|]; try reflexivity;
    [congruence|].
  destruct (existsb (String.eqb (fromRegion ev)) JS.Object_prototype_keys)
    eqn:Hex; [|reflexivity].
  exfalso. apply Hproto. apply existsb_exists in Hex as (k & Hk & Heq).
  apply String.eqb_eq in Heq as ->. apply list_elem_of_In, Hk.
Qed.

Lemma tally_scan events :
  forall (acc : list (string * Tally)) t,
    tally_total acc = Some t ->
    Forall (fun ev => fromRegion ev ∉ JS.Object_prototype_keys) events ->
    tally_total (foldl tally_step acc events) = Some (t + length events)
    /\ forall r,
         JS.Map_get (foldl tally_step acc events) r
         = match length (events_from r events) with
           | 0 => JS.Map_get acc r
           | S c => Some (Count (match JS.Map_get acc r with
                                 | Some (Count n) => n + S c
                                 | _ => S c
                                 end))
           end.
Proof.
  induction events as [|ev events IH]; intros acc t Ht Hall; cbn [foldl].
  - cbn [length events_from List.filter].
    split; [rewrite Ht; f_equal; lia | reflexivity].
  - apply Forall_cons in Hall as [Hev Hall].
    rewrite (tally_step_count acc t ev Ht Hev).
    pose proof (tally_total_set acc t (fromRegion ev) Ht) as Ht'.
    destruct (IH _ _ Ht' Hall) as [Htotal Hget].
    split; [rewrite Htotal; cbn [length]; f_equal; lia|].
    intros r. rewrite Hget. unfold events_from. cbn [List.filter].
    fold (events_from r events).
    destruct (String.eqb_spec (fromRegion ev) r) as [<- | Hne].
    + rewrite Map_get_set_eq. cbn [length].
      pose proof (tally_total_get acc t (fromRegion ev) Ht) as Hg.
      destruct (length (events_from (fromRegion ev) events)) as [|c];
        destruct (JS.Map_get acc (fromRegion ev)) as [[n|]|];
        try congruence; do 2 f_equal; lia.
    + rewrite Map_get_set_ne by exact Hne. reflexivity.
Qed.

(** X11. On a manager that satisfies the invariant, [getFailoverStats]
    reports the length of the failover log (at most 100), the number of
    its events that are less than 24 hours old, for every region the
    number of those events that stem from it (and no entry for a region
    without one), so that the per-region counts add up to the 24-hour
    count, and the last ten events of the log as the recent ones. *)
Theorem failover_stats_tally :
  forall (getTime : string -> option Z) (now : Z) (m : Manager),
    manager_invariant m ->
    let stats := getFailoverStats getTime now m in
    let recent := last_day getTime now (failoverHistory m) in
    totalFailovers stats = length (failoverHistory m)
    /\ totalFailovers stats <= 100
    /\ last24Hours stats = length recent
    /\ last24Hours stats <= totalFailovers stats
    /\ tally_total (regionFailures stats) = Some (last24Hours stats)
    /\ (forall r,
           JS.Map_get (regionFailures stats) r
           = match length (events_from r recent) with
             | 0 => None
             | S c => Some (Count (S c))
             end)
    /\ recentFailovers stats = lastn 10 (failoverHistory m)
    /\ length (recentFailovers stats) <= 10.
Proof.
  intros getTime now m (_ & _ & _ & Hlen & Hlog) stats recent.
  assert (List.filter
            (fun record =>
               match getTime (timestamp record) with
               | Some t => (now - t <? 24 * 60 * 60 * 1000)%Z
               | None => false
               end) (failoverHistory m) = recent) as Hrecent.
  { unfold recent, last_day. apply filter_ext. intros ev.
    destruct (getTime (timestamp ev)) as [t|]; [|reflexivity].
    destruct (Z.ltb_spec (now - t) (24 * 60 * 60 * 1000)) as [Hlt | Hge].
    - symmetry. apply bool_decide_eq_true. lia.
    - symmetry. apply bool_decide_eq_false. lia. }
  assert (Forall (fun ev => fromRegion ev ∉ JS.Object_prototype_keys) recent)
    as Hrecent_ok.
  { apply Forall_forall. intros ev Hin.
    apply list_elem_of_In, filter_In in Hin as [Hin _].
    rewrite Forall_forall in Hlog.
    apply region_key_not_prototype, (Hlog ev), list_elem_of_In, Hin. }
  destruct (tally_scan recent [] 0 eq_refl Hrecent_ok) as [Htotal Hget].
  unfold stats, getFailoverStats.
  cbn [totalFailovers last24Hours regionFailures recentFailovers].
  rewrite Hrecent.
  split; [reflexivity|]. split; [exact Hlen|]. split; [reflexivity|].
  split.
  { unfold recent, last_day. apply filter_length_le. }
  split; [exact Htotal|]. split.
  { intros r. rewrite Hget.
    destruct (length (events_from r recent)); reflexivity. }
  split; [reflexivity|].
  rewrite length_drop. lia.
Qed.

Lemma manager_after_503_invariant : manager_invariant manager_after_503.
Proof. apply execute_invariant, manager_up_invariant. Defined.

(** X11 at the manager after three 503 answers, read 35 seconds after
    the first tick. *)
Lemma failover_stats_tally_witness :
  let stats := getFailoverStats example_getTime 35000 manager_after_503 in
  let recent :=
    last_day example_getTime 35000 (failoverHistory manager_after_503) in
  totalFailovers stats = length (failoverHistory manager_after_503)
  /\ totalFailovers stats <= 100
  /\ last24Hours stats = length recent
  /\ last24Hours stats <= totalFailovers stats
  /\ tally_total (regionFailures stats) = Some (last24Hours stats)
  /\ (forall r,
         JS.Map_get (regionFailures stats) r
         = match length (events_from r recent) with
           | 0 => None
           | S c => Some (Count (S c))
           end)
  /\ recentFailovers stats = lastn 10 (failoverHistory manager_after_503)
  /\ length (recentFailovers stats) <= 10.
Proof.
  exact (failover_stats_tally example_getTime 35000 manager_after_503
           manager_after_503_invariant).
Defined.

(** ** Cache keys *)

Lemma key_char_underscore : key_char "_" = true.
Proof. reflexivity. Qed.

Lemma key_char_not_special c : key_char c = true -> glob_special c = false.
Proof.
  intros Hc. unfold glob_special. cbn [existsb].
  repeat match goal with
         | |- context [Ascii.eqb c ?x] =>
             destruct (Ascii.eqb_spec c x) as [-> | _]; [discriminate|]
         end.
  reflexivity.
Qed.

Lemma clean_part_chars part : string_forall key_char (clean_part part) = true.
Proof.
  induction part as [|c rest IH]; [reflexivity|].
  cbn [clean_part string_forall]. rewrite IH.
  destruct (key_char c) eqn:Hc; [rewrite Hc | rewrite key_char_underscore];
    reflexivity.
Qed.

Lemma clean_part_fixed part :
  clean_part part = part <-> string_forall key_char part = true.
Proof.
  induction part as [|c rest IH]; [split; reflexivity|].
  cbn [clean_part string_forall]. split.
  - intros [= Hc Hrest]. apply IH in Hrest. rewrite Hrest.
    destruct (key_char c) eqn:Hk; [reflexivity|].
    rewrite <- Hc in Hk. discriminate.
  - intros H. apply andb_prop in H as [Hc Hrest].
    rewrite Hc. f_equal. apply IH, Hrest.
Qed.

(** X12. Sanitising a key part keeps its length, leaves only code units
    of [[a-zA-Z0-9_-]], changes nothing when applied again, and leaves a
    part untouched exactly when all its code units are of that class. *)
Theorem clean_part_sanitises :
  forall part : string,
    String.length (clean_part part) = String.length part
    /\ string_forall key_char (clean_part part) = true
    /\ clean_part (clean_part part) = clean_part part
    /\ (clean_part part = part <-> string_forall key_char part = true).
Proof.
  intros part. split; [|split; [|split]].
  - induction part as [|c rest IH]; [reflexivity|].
    cbn [clean_part String.length]. rewrite IH. reflexivity.
  - apply clean_part_chars.
  - apply clean_part_fixed, clean_part_chars.
  - apply clean_part_fixed.
Qed.

Lemma append_String c (x y : string) :
  String c x +:+ y = String c (x +:+ y).
Proof. reflexivity. Qed.

Lemma append_inv_head (p x y : string) : p +:+ x = p +:+ y -> x = y.
Proof.
  induction p as [|c p IH]; [auto|].
  rewrite !append_String. intros [= H]. apply IH, H.
Qed.

(** Two strings without a colon that are followed by nothing or by a
    colon. *)
Lemma colon_free_prefix (a b x y : string) :
  string_forall key_char a = true -> string_forall key_char b = true ->
  (x = "" \/ exists x', x = String ":" x') ->
  (y = "" \/ exists y', y = String ":" y') ->
  a +:+ x = b +:+ y -> a = b /\ x = y.
Proof.
  revert b. induction a as [|c a IH]; intros b Ha Hb Hx Hy Heq.
  - destruct b as [|d b]; [auto|]. rewrite append_String in Heq.
    change ("" +:+ x) with x in Heq.
    cbn [string_forall] in Hb. apply andb_prop in Hb as [Hd _].
    destruct Hx as [-> | (x' & ->)]; [discriminate|].
    injection Heq as <- _. discriminate.
  - cbn [string_forall] in Ha. apply andb_prop in Ha as [Hc Ha].
    rewrite append_String in Heq. destruct b as [|d b].
    + change ("" +:+ y) with y in Heq.
      destruct Hy as [-> | (y' & ->)]; [discriminate|].
      injection Heq as -> _. discriminate.
    + rewrite append_String in Heq.
      cbn [string_forall] in Hb. apply andb_prop in Hb as [_ Hb].
      injection Heq as -> Heq.
      destruct (IH b Ha Hb Hx Hy Heq) as [-> ->]. split; reflexivity.
Qed.

Lemma concat_clean_inj (l1 l2 : list string) :
  l1 <> [] -> l2 <> [] ->
  String.concat ":" (map clean_part l1)
  = String.concat ":" (map clean_part l2) ->
  map clean_part l1 = map clean_part l2.
Proof.
  revert l2. induction l1 as [|a l1 IH]; intros l2 Hne1 Hne2; [congruence|].
  destruct l2 as [|b l2]; [congruence|].
  cbn [map String.concat].
  assert (forall l : list string,
             match map clean_part l with
             | [] => ""
             | _ :: _ => ":" +:+ String.concat ":" (map clean_part l)
             end = ""
             \/ exists x', match map clean_part l with
                           | [] => ""
                           | _ :: _ => ":" +:+ String.concat ":"
                                                 (map clean_part l)
                           end = String ":" x') as Htail.
  { intros l. destruct (map clean_part l); [left; reflexivity|].
    right. eexists. reflexivity. }
  assert (forall x (l : list string),
             match l with
             | [] => x
             | _ :: _ => x +:+ ":" +:+ String.concat ":" l
             end
             = x +:+ match l with
                     | [] => ""
                     | _ :: _ => ":" +:+ String.concat ":" l
                     end) as Hshape.
  { intros x l. destruct l; [|reflexivity].
    clear. induction x as [|c x IHx]; [reflexivity|].
    rewrite append_String. f_equal. exact IHx. }
  rewrite (Hshape (clean_part a) (map clean_part l1)),
    (Hshape (clean_part b) (map clean_part l2)). intros Heq.
  apply colon_free_prefix in Heq as [Hab Hrest];
    [|apply clean_part_chars..|apply Htail|apply Htail].
  rewrite Hab. f_equal.
  destruct l1 as [|a1 l1], l2 as [|b1 l2]; try reflexivity;
    cbn [map] in Hrest; try discriminate.
  apply (IH (b1 :: l2)); [discriminate..|].
  cbn [map]. apply (append_inv_head ":"), Hrest.
Qed.

Lemma generateKey_parts_eq (prefix : string) (parts1 parts2 : list string) :
  parts1 <> [] -> parts2 <> [] ->
  generateKey prefix parts1 = generateKey prefix parts2 ->
  map clean_part parts1 = map clean_part parts2.
Proof.
  intros Hne1 Hne2 Heq. unfold generateKey in Heq.
  apply append_inv_head, (append_inv_head ":") in Heq.
  apply concat_clean_inj; assumption.
Qed.

(** X13. Keys built by [generateKey] under the same prefix from at least
    one part each are equal only if their sanitised parts are equal, one by
    one: parts never run into each other. *)
Theorem generateKey_separates_parts :
  forall (prefix : string) (parts1 parts2 : list string),
    parts1 <> [] -> parts2 <> [] ->
    generateKey prefix parts1 = generateKey prefix parts2 ->
    map clean_part parts1 = map clean_part parts2.
Proof.
  intros prefix parts1 parts2 Hne1 Hne2 Heq. unfold generateKey in Heq.
  apply append_inv_head, (append_inv_head ":") in Heq.
  apply concat_clean_inj; assumption.
Qed.

(** X13 at two session keys. *)
Lemma generateKey_separates_parts_witness :
  map clean_part ["user 7"] = map clean_part ["user_7"].
Proof.
  apply (generateKey_separates_parts "session" ["user 7"] ["user_7"]).
  - discriminate.
  - discriminate.
  - reflexivity.
Defined.

Lemma string_forall_append p a b :
  string_forall p (a +:+ b) = string_forall p a && string_forall p b.
Proof.
  induction a as [|c a IH]; [reflexivity|].
  rewrite append_String. cbn [string_forall].
  rewrite IH, andb_assoc. reflexivity.
Qed.

Lemma string_forall_impl (p q : ascii -> bool) s :
  (forall c, p c = true -> q c = true) ->
  string_forall p s = true -> string_forall q s = true.
Proof.
  intros Hpq. induction s as [|c s IH]; [reflexivity|].
  cbn [string_forall]. intros H. apply andb_prop in H as [Hc Hs].
  rewrite (Hpq c Hc), (IH Hs). reflexivity.
Qed.

(** X14. The pattern [invalidateScanResults] deletes by has its
    wildcard sanitised away: it is the fixed key made of the scan
    identifier and an underscore, it holds no code unit that means
    something in a Redis pattern, and it is the key under which a scan
    result is cached only for an endpoint name that sanitises to a single
    underscore. *)
Theorem scan_pattern_has_no_wildcard :
  forall scanId : string,
    scan_results_pattern scanId = "scan:" +:+ clean_part scanId +:+ ":_"
    /\ string_forall (fun c => negb (glob_special c))
                     (scan_results_pattern scanId) = true
    /\ forall scanId' endpointName,
         scan_result_key scanId' endpointName = scan_results_pattern scanId
         <-> clean_part scanId' = clean_part scanId
             /\ clean_part endpointName = "_".
Proof.
  intros scanId.
  assert (scan_results_pattern scanId
          = "scan:" +:+ clean_part scanId +:+ ":_") as Hpat by reflexivity.
  split; [exact Hpat|]. split.
  - rewrite Hpat, !string_forall_append.
    rewrite (string_forall_impl key_char _ (clean_part scanId));
      [reflexivity | | apply clean_part_chars].
    intros c Hc. rewrite (key_char_not_special c Hc). reflexivity.
  - intros scanId' endpointName. split.
    + intros Heq.
      apply (generateKey_parts_eq "scan" [scanId'; endpointName]
               [scanId; "*"]) in Heq; [|discriminate..].
      injection Heq as H1 H2. split; assumption.
    + intros [H1 H2]. unfold scan_result_key, scan_results_pattern,
        generateKey. cbn [map]. rewrite H1, H2. reflexivity.
Qed.

Lemma append_inj_length (a b x y : string) :
  String.length a = String.length b ->
  a +:+ x = b +:+ y -> a = b /\ x = y.
Proof.
  revert b. induction a as [|c a IH]; intros [|d b] Hlen; try discriminate.
  - auto.
  - rewrite !append_String. intros [= -> Heq].
    cbn [String.length] in Hlen. injection Hlen as Hlen.
    destruct (IH b Hlen Heq) as [-> ->]. split; reflexivity.
Qed.

Lemma clean_part_length part :
  String.length (clean_part part) = String.length part.
Proof.
  induction part as [|c rest IH]; [reflexivity|].
  cbn [clean_part String.length]. rewrite IH. reflexivity.
Qed.

(** X15. The key builders of [cacheKeys] do not sanitise: [cacheKeys.scan]
    gives the key of [getScanResult] exactly when the scan identifier and
    the endpoint name consist of code units of [[a-zA-Z0-9_-]] only, and a
    one-part builder such as [cacheKeys.session] gives the key
    [generateKey] builds exactly when its part does. *)
Theorem cacheKeys_agree_on_clean_parts :
  (forall scanId endpoint : string,
      cacheKeys_scan scanId endpoint = scan_result_key scanId endpoint
      <-> string_forall key_char scanId = true
          /\ string_forall key_char endpoint = true)
  /\ (forall prefix part : string,
         cacheKeys_one prefix part = generateKey prefix [part]
         <-> string_forall key_char part = true).
Proof.
  split.
  - intros scanId endpoint. rewrite <- !clean_part_fixed. split.
    + intros Heq.
      assert (scanId +:+ ":" +:+ endpoint
              = clean_part scanId +:+ ":" +:+ clean_part endpoint) as Hparts.
      { apply (append_inv_head "scan:"). exact Heq. }
      apply append_inj_length in Hparts as [H1 H2];
        [|symmetry; apply clean_part_length].
      apply (append_inv_head ":") in H2. split; congruence.
    + intros [H1 H2]. unfold scan_result_key, generateKey. cbn [map].
      rewrite H1, H2. reflexivity.
  - intros prefix part. rewrite <- clean_part_fixed.
    unfold cacheKeys_one, generateKey. cbn [map String.concat]. split.
    + intros Heq. apply append_inv_head, (append_inv_head ":") in Heq.
      congruence.
    + intros ->. reflexivity.
Qed.
